(** * image-metadata: EXIF redaction, camera profiles and AI-keyword heuristics

    A shallow embedding of the Python sources [src/exif_utils.py],
    [src/ai_detect.py], [src/actions.py] and [src/cli.py], with the
    properties of the specification stated and settled over it.

    Conventions of the embedding:
    - a Python [dict] with integer keys (an IFD of piexif) is a
      [gmap Z tagvalue]; Python compares dicts by content, and so does
      the extensional equality of [gmap];
    - the EXIF dict itself has the five string keys the code reads and
      writes; a key can be absent, which is [None] in the record below;
    - a Python [str] is the list of its Unicode code points, a Python
      [bytes] is a list of bytes;
    - a Python [set] is a [gset]; iterating over it follows [elements];
    - a call that can raise returns an [option] (or a sum), [None] being the
      exception that the enclosing [try] of the source catches. *)

From Stdlib Require Import ZArith NArith Ascii String List Lia.
From Stdlib.Strings Require Import Byte.
From stdpp Require Import gmap strings list fin_maps pretty.

#[local] Set Warnings "-clear-no-such-hyp".

Open Scope Z_scope.

(** ** Python values *)

(** A Python [str]: its code points. *)
Definition pystr := list N.

(** A Python [bytes] object. *)
Definition pybytes := list byte.

(** An ASCII literal of the source as a Python [str]. *)
Definition py (s : string) : pystr :=
  N_of_ascii <$> list_ascii_of_string s.

(** An ASCII literal of the source as a Python [bytes]. *)
Definition pyb (s : string) : pybytes :=
  list_byte_of_string s.

#[global] Instance byte_eq_dec : EqDecision byte := Byte.byte_eq_dec.

(** The values piexif stores under a tag, and the ones the transformations
    write: integers, rationals [(num, den)], byte strings, text, and lists of
    rationals. *)
Inductive tagvalue : Type :=
| VInt (n : Z)
| VRational (num den : Z)
| VBytes (b : pybytes)
| VStr (s : pystr)
| VRationals (l : list (Z * Z)).

#[global] Instance tagvalue_eq_dec : EqDecision tagvalue.
Proof. solve_decision. Defined.

(** ** Tag numbers used by the source

    [piexif.ImageIFD] and [piexif.ExifIFD] name the tag numbers of the
    EXIF standard; the source gives most of them in its comments. *)
Module ImageIFD.
Definition ImageDescription : Z := 270.
Definition Make : Z := 271.
Definition Model : Z := 272.
Definition Orientation : Z := 274.
Definition Software : Z := 305.
Definition DateTime : Z := 306.
Definition Artist : Z := 315.
Definition HostComputer : Z := 316.
Definition Copyright : Z := 33432.
End ImageIFD.

Module ExifIFD.
Definition ExposureTime : Z := 33434.
Definition FNumber : Z := 33437.
Definition ISOSpeedRatings : Z := 34855.
Definition DateTimeOriginal : Z := 36867.
Definition DateTimeDigitized : Z := 36868.
Definition FocalLength : Z := 37386.
Definition MakerNote : Z := 37500.
Definition UserComment : Z := 37510.
Definition ImageUniqueID : Z := 42016.
Definition CameraOwnerName : Z := 42032.
Definition BodySerialNumber : Z := 42033.
Definition LensMake : Z := 42035.
Definition LensModel : Z := 42036.
Definition LensSerialNumber : Z := 42037.
End ExifIFD.

(** Windows XP tags (utf-16le encoded). *)
Definition XP_TITLE : Z := 40091.
Definition XP_COMMENT : Z := 40092.
Definition XP_AUTHOR : Z := 40093.
Definition XP_KEYWORDS : Z := 40094.
Definition XP_SUBJECT : Z := 40095.
Definition XP_TAGS : gset Z :=
  {[ XP_TITLE; XP_COMMENT; XP_AUTHOR; XP_KEYWORDS; XP_SUBJECT ]}.

(** ** The EXIF dict *)

Abbreviation ifd := (gmap Z tagvalue).

(** [exif]: the dict of [piexif.load]. A field is [None] when the key is
    absent; ["thumbnail"] maps to [None] (Python's) or to a byte string. *)
Record ExifDict : Type := mkExif {
  ex_0th : option ifd;
  ex_Exif : option ifd;
  ex_GPS : option ifd;
  ex_1st : option ifd;
  ex_thumbnail : option (option pybytes)
}.

(** The empty dict [{}]. *)
Definition empty_exif : ExifDict := mkExif None None None None None.

(** The four IFD keys. *)
Inductive ifd_key : Type := K0th | KExif | KGPS | K1st.

#[global] Instance ifd_key_eq_dec : EqDecision ifd_key.
Proof. solve_decision. Defined.

(** [exif.get(ifd)] for an IFD key. *)
Definition exif_lookup (k : ifd_key) (e : ExifDict) : option ifd :=
  match k with
  | K0th => ex_0th e
  | KExif => ex_Exif e
  | KGPS => ex_GPS e
  | K1st => ex_1st e
  end.

(** [exif[ifd] = m]. *)
Definition exif_store (k : ifd_key) (m : ifd) (e : ExifDict) : ExifDict :=
  match k with
  | K0th => mkExif (Some m) (ex_Exif e) (ex_GPS e) (ex_1st e) (ex_thumbnail e)
  | KExif => mkExif (ex_0th e) (Some m) (ex_GPS e) (ex_1st e) (ex_thumbnail e)
  | KGPS => mkExif (ex_0th e) (ex_Exif e) (Some m) (ex_1st e) (ex_thumbnail e)
  | K1st => mkExif (ex_0th e) (ex_Exif e) (ex_GPS e) (Some m) (ex_thumbnail e)
  end.

(** [exif.get(ifd, {})]. *)
Definition exif_get (k : ifd_key) (e : ExifDict) : ifd :=
  default ∅ (exif_lookup k e).

(** [d.setdefault(k, v)] on an optional field. *)
Definition setdefault {A} (v : A) (o : option A) : option A :=
  match o with
  | Some x => Some x
  | None => Some v
  end.

(** [ensure_exif_structure]: every key exists afterwards. *)
Definition ensure_exif_structure (exif : option ExifDict) : ExifDict :=
  let e := default empty_exif exif in
  mkExif (setdefault ∅ (ex_0th e))
         (setdefault ∅ (ex_Exif e))
         (setdefault ∅ (ex_GPS e))
         (setdefault ∅ (ex_1st e))
         (setdefault None (ex_thumbnail e)).

(** [target.pop(t, None)] guarded by [if t in target]. *)
Definition pop_if_present (t : Z) (target : ifd) : ifd :=
  if decide (is_Some (target !! t)) then delete t target else target.

(** [remove_tags]: the loop runs over the set of tags; it changes the IFD
    dict in place, and a dict that is absent stays absent (the loop then
    runs on a temporary [{}]). *)
Definition remove_tags (k : ifd_key) (tags : gset Z) (e : ExifDict) : ExifDict :=
  match exif_lookup k e with
  | Some target => exif_store k (set_fold pop_if_present target tags) e
  | None => e
  end.

(** [d[k].pop(t, None)] for a key that [ensure_exif_structure] created. *)
Definition exif_pop (k : ifd_key) (t : Z) (e : ExifDict) : ExifDict :=
  exif_store k (delete t (exif_get k e)) e.

(** [exif[k][t] = v]. *)
Definition exif_set (k : ifd_key) (t : Z) (v : tagvalue) (e : ExifDict) : ExifDict :=
  exif_store k (<[t := v]> (exif_get k e)) e.

Definition tags_0th_remove (remove_orientation : bool) : gset Z :=
  ({[ ImageIFD.Make; ImageIFD.Model; ImageIFD.Software; ImageIFD.Artist;
      ImageIFD.HostComputer; ImageIFD.ImageDescription; ImageIFD.Copyright ]}
   ∪ XP_TAGS)
  ∪ (if remove_orientation then {[ ImageIFD.Orientation ]} else ∅).

Definition tags_exif_remove : gset Z :=
  {[ ExifIFD.LensMake; ExifIFD.LensModel; ExifIFD.LensSerialNumber;
     ExifIFD.BodySerialNumber; ExifIFD.CameraOwnerName; ExifIFD.MakerNote;
     ExifIFD.UserComment; ExifIFD.ImageUniqueID ]}.

(** The three [pop]s of the date branches. *)
Definition pop_dates (e : ExifDict) : ExifDict :=
  exif_pop KExif ExifIFD.DateTimeDigitized
    (exif_pop KExif ExifIFD.DateTimeOriginal
       (exif_pop K0th ImageIFD.DateTime e)).

(** [strip_identifying]. *)
Definition strip_identifying (exif : ExifDict)
    (preserve_dates anonymize_dates remove_orientation : bool) : ExifDict :=
  let e := ensure_exif_structure (Some exif) in
  let e := exif_store KGPS ∅ e in
  let e := remove_tags K0th (tags_0th_remove remove_orientation) e in
  let e := remove_tags KExif tags_exif_remove e in
  let e :=
    if anonymize_dates then pop_dates e
    else if negb preserve_dates then pop_dates e
    else e in
  let e := exif_store K1st ∅ e in
  mkExif (ex_0th e) (ex_Exif e) (ex_GPS e) (ex_1st e) (Some None).

(** [set_camera_make_model]. *)
Definition set_camera_make_model (exif : ExifDict) (make model : pystr) : ExifDict :=
  let e := ensure_exif_structure (Some exif) in
  let e := exif_set K0th ImageIFD.Make (VStr make) e in
  exif_set K0th ImageIFD.Model (VStr model) e.

(** ** Python string operations used by the source *)

(** [str.lower()] on one code point. The ASCII capitals map to their small
    letters. Two other code points have a lower-case form that contains an
    ASCII letter, U+0130 (capital I with dot above) and U+212A (Kelvin
    sign); every further code point lower-cases to code points outside
    ASCII, which no ASCII literal or keyword of the source can match, and is
    kept as it is here. So [str_lower] is [s.lower()] on ASCII text, and on
    every text as far as the comparison with ASCII text goes; it is not the
    lower-case form of a text with other cased letters (["É"] is kept).
    The statements about the keyword list of [deep_scan_bytes] take extra
    keywords of ASCII characters ([ascii_keywords]). *)
Definition lower_codepoint (c : N) : list N :=
  if ((65 <=? c) && (c <=? 90))%N then [(c + 32)%N]
  else if (c =? 304)%N then [105%N; 775%N]
  else if (c =? 8490)%N then [107%N]
  else [c].

(** [s.lower()]. *)
Definition str_lower (s : pystr) : pystr :=
  s ≫= lower_codepoint.

(** [str.isspace()] on one code point: the white space of Unicode. *)
Definition is_space (c : N) : bool :=
  (((9 <=? c) && (c <=? 13)) || ((28 <=? c) && (c <=? 32))
   || (c =? 133) || (c =? 160) || (c =? 5760)
   || ((8192 <=? c) && (c <=? 8202))
   || (c =? 8232) || (c =? 8233) || (c =? 8239) || (c =? 8287)
   || (c =? 12288))%N.

(** [s.lstrip()], [s.rstrip()] and [s.strip()]. *)
Fixpoint lstrip (s : pystr) : pystr :=
  match s with
  | c :: s' => if is_space c then lstrip s' else s
  | [] => []
  end.

Definition rstrip (s : pystr) : pystr := reverse (lstrip (reverse s)).

Definition strip (s : pystr) : pystr := rstrip (lstrip s).

(** [s.split(sep, 1)] for a one-character separator that occurs in [s]:
    the text before the first separator and the text after it. *)
Fixpoint split_once (sep : N) (s : pystr) : pystr * pystr :=
  match s with
  | [] => ([], [])
  | c :: s' =>
      if (c =? sep)%N then ([], s')
      else let '(a, b) := split_once sep s' in (c :: a, b)
  end.

(** [x or y] on strings: the empty string is false. *)
Definition str_or (x y : pystr) : pystr :=
  match x with [] => y | _ => x end.

(** Truth value of an optional string: [None] and [""] are false. *)
Definition truthy (o : option pystr) : bool :=
  match o with
  | Some (_ :: _) => true
  | _ => false
  end.

(** [apply_extended_camera_profile]. *)
Definition apply_extended_camera_profile (exif : ExifDict)
    (profile make model : pystr) : ExifDict :=
  let e := ensure_exif_structure (Some exif) in
  let e := set_camera_make_model e make model in
  let e := exif_set KExif ExifIFD.FNumber (VRational 28 10) e in
  let e := exif_set KExif ExifIFD.ExposureTime (VRational 1 125) e in
  let e := exif_set KExif ExifIFD.FocalLength (VRational 50 1) e in
  let e := exif_set KExif ExifIFD.ISOSpeedRatings (VInt 100) e in
  if decide (str_lower profile = py "canon") then
    let e := exif_set KExif ExifIFD.LensMake (VStr (py "Canon")) e in
    let e := exif_set KExif ExifIFD.LensModel (VStr (py "EF 50mm f/1.8")) e in
    exif_set K0th ImageIFD.Software (VStr (py "Canon Firmware")) e
  else if decide (str_lower profile = py "iphone") then
    let e := exif_set KExif ExifIFD.LensMake (VStr (py "Apple")) e in
    let e := exif_set KExif ExifIFD.LensModel
               (VStr (py "iPhone 14 Pro back camera 24mm f/1.78")) e in
    exif_set K0th ImageIFD.Software (VStr (py "Apple iOS")) e
  else
    exif_set K0th ImageIFD.Software (VStr (py "Camera System")) e.

(** [get_default_camera_profile]: [(profile_key, make, model)]. *)
Definition get_default_camera_profile (name : option pystr)
    : pystr * pystr * pystr :=
  match name with
  | None | Some [] => (py "canon", py "Canon", py "Canon EOS 5D Mark IV")
  | Some name =>
      if decide (str_lower name = py "canon") then
        (py "canon", py "Canon", py "Canon EOS 5D Mark IV")
      else if decide (str_lower name = py "iphone") then
        (py "iphone", py "Apple", py "iPhone 14 Pro")
      else if decide (124%N ∈ name) then
        let '(a, b) := split_once 124 name in
        (py "custom", str_or (strip a) (py "Camera"), str_or (strip b) (py "Model"))
      else (py "custom", name, name ++ py " Camera")
  end.

(** ** Decoding byte strings ([bytes.decode])

    [bytes.decode(encoding, errors)] raises [UnicodeDecodeError] on malformed
    input when [errors] is ["strict"], and drops the malformed bytes when it
    is ["ignore"]. The decoders return [None] for the exception. *)
Inductive error_handler : Type := Strict | Ignore.

(** What a decoder does at a malformed position: raise, or go on with the
    text decoded from the rest. *)
Definition on_error (errors : error_handler) (rest : option pystr) : option pystr :=
  match errors with
  | Strict => None
  | Ignore => rest
  end.

Definition is_continuation (b : N) : bool := ((128 <=? b) && (b <=? 191))%N.

(** UTF-8, as CPython decodes it: a malformed sequence spans the lead byte
    and the continuation bytes accepted so far; a sequence cut by the end of
    the input spans the rest of the input. *)
Fixpoint utf8_decode (errors : error_handler) (s : pybytes) : option pystr :=
  match s with
  | [] => Some []
  | b1 :: t1 =>
    let ch := Byte.to_N b1 in
    if (ch <? 128)%N then cons ch <$> utf8_decode errors t1
    else if (ch <? 194)%N then on_error errors (utf8_decode errors t1)
    else if (ch <? 224)%N then
      match t1 with
      | [] => on_error errors (Some [])
      | b2 :: t2 =>
        let ch2 := Byte.to_N b2 in
        if is_continuation ch2 then
          cons (N.land ch 31 * 64 + N.land ch2 63)%N <$> utf8_decode errors t2
        else on_error errors (utf8_decode errors t1)
      end
    else if (ch <? 240)%N then
      match t1 with
      | [] => on_error errors (Some [])
      | b2 :: t2 =>
        let ch2 := Byte.to_N b2 in
        if negb (is_continuation ch2)
           || (if (ch2 <? 160)%N then (ch =? 224)%N else (ch =? 237)%N)
        then on_error errors (utf8_decode errors t1)
        else
          match t2 with
          | [] => on_error errors (Some [])
          | b3 :: t3 =>
            let ch3 := Byte.to_N b3 in
            if is_continuation ch3 then
              cons (N.land ch 15 * 4096 + N.land ch2 63 * 64 + N.land ch3 63)%N
                <$> utf8_decode errors t3
            else on_error errors (utf8_decode errors t2)
          end
      end
    else if (ch <? 245)%N then
      match t1 with
      | [] => on_error errors (Some [])
      | b2 :: t2 =>
        let ch2 := Byte.to_N b2 in
        if negb (is_continuation ch2)
           || (if (ch2 <? 144)%N then (ch =? 240)%N else (ch =? 244)%N)
        then on_error errors (utf8_decode errors t1)
        else
          match t2 with
          | [] => on_error errors (Some [])
          | b3 :: t3 =>
            let ch3 := Byte.to_N b3 in
            if negb (is_continuation ch3) then on_error errors (utf8_decode errors t2)
            else
              match t3 with
              | [] => on_error errors (Some [])
              | b4 :: t4 =>
                let ch4 := Byte.to_N b4 in
                if is_continuation ch4 then
                  cons (N.land ch 7 * 262144 + N.land ch2 63 * 4096
                        + N.land ch3 63 * 64 + N.land ch4 63)%N
                    <$> utf8_decode errors t4
                else on_error errors (utf8_decode errors t3)
              end
          end
      end
    else on_error errors (utf8_decode errors t1)
  end.

Definition is_high_surrogate (u : N) : bool := ((55296 <=? u) && (u <=? 56319))%N.
Definition is_low_surrogate (u : N) : bool := ((56320 <=? u) && (u <=? 57343))%N.

(** UTF-16LE: two bytes a code unit, a high surrogate joined with the low
    surrogate after it. Malformed: a low surrogate on its own, a high
    surrogate not followed by a low one (both span the one code unit), a high
    surrogate or a single byte at the end of the input (spans the rest). *)
Fixpoint utf16le_decode (errors : error_handler) (s : pybytes) : option pystr :=
  match s with
  | [] => Some []
  | [_] => on_error errors (Some [])
  | lo :: hi :: rest =>
    let u := (Byte.to_N lo + 256 * Byte.to_N hi)%N in
    if is_low_surrogate u then on_error errors (utf16le_decode errors rest)
    else if is_high_surrogate u then
      match rest with
      | lo2 :: hi2 :: rest2 =>
        let u2 := (Byte.to_N lo2 + 256 * Byte.to_N hi2)%N in
        if is_low_surrogate u2 then
          cons (65536 + (u - 55296) * 1024 + (u2 - 56320))%N
            <$> utf16le_decode errors rest2
        else on_error errors (utf16le_decode errors rest)
      | _ => on_error errors (Some [])
      end
    else cons u <$> utf16le_decode errors rest
  end.

(** Latin-1: every byte is the code point of the same number. *)
Definition latin1_decode (errors : error_handler) (s : pybytes) : option pystr :=
  Some (Byte.to_N <$> s).

(** [s.rstrip("\x00")]. *)
Fixpoint lstrip_nul (s : pystr) : pystr :=
  match s with
  | c :: s' => if (c =? 0)%N then lstrip_nul s' else s
  | [] => []
  end.

Definition rstrip_nul (s : pystr) : pystr := reverse (lstrip_nul (reverse s)).

(** [bytes.hex()]: two lower-case hexadecimal digits a byte. *)
Definition hex_digit (n : N) : N :=
  if (n <? 10)%N then (48 + n)%N else (87 + n)%N.

Definition bytes_hex (s : pybytes) : pystr :=
  s ≫= λ b, [hex_digit (Byte.to_N b / 16); hex_digit (Byte.to_N b mod 16)].

(** The hex preview of the innermost [except]. *)
Definition hex_preview (value : pybytes) : pystr :=
  bytes_hex (take 64 value)
  ++ (if decide (64 < length value)%nat then py "..." else []).

(** What follows the XP branch: ["# Try utf-8 then latin-1"]. *)
Definition decode_fallback_chain (value : pybytes) : pystr :=
  match utf8_decode Ignore value with
  | Some s => s
  | None =>
      match latin1_decode Ignore value with
      | Some s => s
      | None => hex_preview value
      end
  end.

(** [_decode_bytes_value]. *)
Definition _decode_bytes_value (tag : Z) (value : pybytes) : pystr :=
  if decide (tag ∈ XP_TAGS) then
    match utf16le_decode Ignore value with
    | Some s => rstrip_nul s
    | None => decode_fallback_chain value
    end
  else decode_fallback_chain value.

(** ** The AI heuristic ([src/ai_detect.py]) *)

Definition AI_KEYWORDS : list pystr :=
  py <$> [ "stable diffusion"; "sdxl"; "comfyui"; "invokeai"; "automatic1111";
           "novelai"; "midjourney"; "dall-e"; "dalle"; "firefly";
           "adobe firefly"; "generative fill"; "leonardo"; "ideogram";
           "runway"; "mage.space"; "controlnet"; "ai"; "ia" ]%string.

Definition CANDIDATE_TAGS : gset pystr :=
  list_to_set
    (py <$> [ "Software"; "ImageDescription"; "Artist"; "Make"; "Model";
              "UserComment"; "MakerNote"; "LensModel"; "HostComputer" ]%string).

(** [p] starts [l]. *)
Fixpoint starts_with {A} `{EqDecision A} (p l : list A) : bool :=
  match p, l with
  | [], _ => true
  | _ :: _, [] => false
  | x :: p', y :: l' => bool_decide (x = y) && starts_with p' l'
  end.

(** [needle in hay] for [str] and for [bytes]: a contiguous occurrence. *)
Fixpoint contains {A} `{EqDecision A} (needle hay : list A) : bool :=
  starts_with needle hay ||
  match hay with
  | [] => false
  | _ :: hay' => contains needle hay'
  end.

(** [_find_keywords]. *)
Definition _find_keywords (text : pystr) (keywords : list pystr) : list pystr :=
  let text_l := str_lower text in
  filter (λ kw, contains kw text_l = true) keywords.

(** The values of the readable dict that the heuristic reads with [str(val)]:
    decoded text, and integers. *)
Inductive rvalue : Type :=
| RStr (s : pystr)
| RInt (n : Z).

(** [str(val)]. *)
Definition py_str (v : rvalue) : pystr :=
  match v with
  | RStr s => s
  | RInt n => py (pretty n)
  end.

(** A readable IFD: a dict from tag names to values, in insertion order. *)
Abbreviation readable_ifd := (list (pystr * rvalue)).

(** The readable dict: the IFD keys can be absent (the callers pass [{}]
    for a file without EXIF), and ["thumbnail"] is a byte-count text. *)
Record ReadableExif : Type := mkReadable {
  rd_0th : option readable_ifd;
  rd_Exif : option readable_ifd;
  rd_GPS : option readable_ifd;
  rd_1st : option readable_ifd;
  rd_thumbnail : option pystr
}.

(** The name of an IFD key, as the source writes it. *)
Definition ifd_name (k : ifd_key) : pystr :=
  match k with
  | K0th => py "0th"
  | KExif => py "Exif"
  | KGPS => py "GPS"
  | K1st => py "1st"
  end.

(** [readable_exif.get(ifd_name, {})]. *)
Definition readable_get (k : ifd_key) (r : ReadableExif) : readable_ifd :=
  default []
    match k with
    | K0th => rd_0th r
    | KExif => rd_Exif r
    | KGPS => rd_GPS r
    | K1st => rd_1st r
    end.

(** Lexicographic order on [str], by code point: Python's [<=]. *)
Fixpoint str_le (a b : pystr) : bool :=
  match a, b with
  | [], _ => true
  | _ :: _, [] => false
  | x :: a', y :: b' => (x <? y)%N || ((x =? y)%N && str_le a' b')
  end.

Fixpoint insert_sorted (x : pystr) (l : list pystr) : list pystr :=
  match l with
  | [] => [x]
  | y :: l' => if str_le x y then x :: l else y :: insert_sorted x l'
  end.

(** [sorted(l)] for a list of strings. *)
Definition sorted (l : list pystr) : list pystr := foldr insert_sorted [] l.

(** [sep.join(l)]. *)
Fixpoint join (sep : pystr) (l : list pystr) : pystr :=
  match l with
  | [] => []
  | [x] => x
  | x :: l' => x ++ sep ++ join sep l'
  end.

(** The reason text of one field. [set(hits)] is [remove_dups hits]: the
    order in which the set enumerates is undone by [sorted]. *)
Definition reason_text (k : ifd_key) (tag_name : pystr) (hits : list pystr) : pystr :=
  ifd_name k ++ py "." ++ tag_name ++ py " contains: "
  ++ join (py ", ") (sorted (remove_dups hits)).

(** The body of the inner loop, for one item of the IFD. *)
Definition field_reasons (k : ifd_key) (item : pystr * rvalue) : list pystr :=
  let '(tag_name, val) := item in
  if decide (tag_name ∈ CANDIDATE_TAGS) then
    let sval := py_str val in
    let hits := _find_keywords sval AI_KEYWORDS in
    match hits with
    | [] => []
    | _ => [reason_text k tag_name hits]
    end
  else [].

(** [detect_ai_from_exif_readable]: [(detected, reasons)]. *)
Definition detect_ai_from_exif_readable (readable_exif : ReadableExif)
    : bool * list pystr :=
  let reasons :=
    [K0th; KExif; K1st] ≫= λ k, readable_get k readable_exif ≫= field_reasons k in
  (bool_decide (0 < length reasons)%nat, reasons).

(** *** The deep byte scan *)

(** The byte of a number below 256. *)
Definition byte_of_N (n : N) : byte := default x00 (Byte.of_N n).

(** [bytes.lower()]: only the ASCII capitals change. *)
Definition byte_lower (b : byte) : byte :=
  let n := Byte.to_N b in
  if ((65 <=? n) && (n <=? 90))%N then byte_of_N (n + 32) else b.

Definition bytes_lower (s : pybytes) : pybytes := byte_lower <$> s.

(** [str.encode("utf-8")] on one code point; a surrogate raises
    [UnicodeEncodeError]. *)
Definition utf8_encode_codepoint (c : N) : option pybytes :=
  if (c <? 128)%N then Some [byte_of_N c]
  else if (c <? 2048)%N then
    Some [byte_of_N (192 + c / 64); byte_of_N (128 + c mod 64)]
  else if (c <? 65536)%N then
    if is_high_surrogate c || is_low_surrogate c then None
    else Some [byte_of_N (224 + c / 4096); byte_of_N (128 + (c / 64) mod 64);
               byte_of_N (128 + c mod 64)]
  else if (c <? 1114112)%N then
    Some [byte_of_N (240 + c / 262144); byte_of_N (128 + (c / 4096) mod 64);
          byte_of_N (128 + (c / 64) mod 64); byte_of_N (128 + c mod 64)]
  else None.

(** [s.encode("utf-8")]. *)
Fixpoint utf8_encode (s : pystr) : option pybytes :=
  match s with
  | [] => Some []
  | c :: s' =>
      match utf8_encode_codepoint c, utf8_encode s' with
      | Some b, Some bs => Some (b ++ bs)
      | _, _ => None
      end
  end.

(** What the scan meets at [path]: [path.open("rb")] raises, or the file
    opens on [data]. [fail_at = Some k] makes the read call number [k]
    (from 0) raise; with [None] no read fails. *)
Inductive file_state : Type :=
| OpenFails
| Readable (data : pybytes) (fail_at : option nat).

Inductive read_outcome : Type :=
| ReadOk (chunk : pybytes)
| ReadError.

(** The successive outcomes of [f.read(n)] up to the end of the file, where
    [read] returns [b""]. A read takes the next [n] bytes, fewer at the end
    of the file. *)
Fixpoint read_calls (fuel n : nat) (data : pybytes) (fail_at : option nat)
    : list read_outcome :=
  match fail_at with
  | Some O => [ReadError]
  | _ =>
      match fuel, data with
      | S fuel', _ :: _ =>
          ReadOk (take n data) :: read_calls fuel' n (drop n data) (pred <$> fail_at)
      | _, _ => []
      end
  end.

Definition chunk_size : nat := 1024 * 1024.

(** [window[-n:]]. *)
Definition last_bytes (n : nat) (window : pybytes) : pybytes :=
  drop (length window - n) window.

(** [keywords]: the built-in list, then the non-empty extra keywords. *)
Definition scan_keywords (extra_keywords : option (list pystr)) : list pystr :=
  AI_KEYWORDS ++
  match extra_keywords with
  | Some l => filter (λ k, k ≠ []) l
  | None => []
  end.

(** ["# Deduplicate but preserve order"]. *)
Fixpoint dedup_lower (seen : gset pystr) (keywords : list pystr) : list pystr :=
  match keywords with
  | [] => []
  | k :: keywords' =>
      let kl := str_lower k in
      if decide (kl ∈ seen) then dedup_lower seen keywords'
      else kl :: dedup_lower ({[ kl ]} ∪ seen) keywords'
  end.

Definition found_msg (kw : pystr) : pystr :=
  py "bytes: found '" ++ kw ++ py "'".

(** How the [for kw in keys] loop over one window ends: it runs to its end
    ([Next]), or the function is left ([Stop]) by [return matches] or by an
    exception, which the [except] clause turns into the final
    [return matches]. *)
Inductive window_result : Type :=
| Next (matches : list pystr)
| Stop (matches : list pystr).

Fixpoint scan_window (keys : list pystr) (low : pybytes) (max_matches : Z)
    (matches : list pystr) : window_result :=
  match keys with
  | [] => Next matches
  | kw :: keys' =>
      match utf8_encode kw with
      | None => Stop matches
      | Some kb =>
          if contains kb low then
            let msg := found_msg kw in
            if decide (msg ∈ matches) then scan_window keys' low max_matches matches
            else
              let matches' := matches ++ [msg] in
              if decide (max_matches ≤ Z.of_nat (length matches'))
              then Stop matches'
              else scan_window keys' low max_matches matches'
          else scan_window keys' low max_matches matches
      end
  end.

(** The [while True] loop, over the outcomes of the read calls; an empty
    chunk is the [break]. *)
Fixpoint scan_reads (keys : list pystr) (max_matches : Z)
    (reads : list read_outcome) (leftover : pybytes) (matches : list pystr)
    : list pystr :=
  match reads with
  | [] => matches
  | ReadError :: _ => matches
  | ReadOk [] :: _ => matches
  | ReadOk chunk :: reads' =>
      let window := leftover ++ chunk in
      let low := bytes_lower window in
      match scan_window keys low max_matches matches with
      | Stop matches' => matches'
      | Next matches' =>
          scan_reads keys max_matches reads' (last_bytes 64 window) matches'
      end
  end.

(** [deep_scan_bytes]. *)
Definition deep_scan_bytes (file : file_state)
    (extra_keywords : option (list pystr)) (max_matches : Z) : list pystr :=
  let keys := dedup_lower ∅ (scan_keywords extra_keywords) in
  match file with
  | OpenFails => []
  | Readable data fail_at =>
      scan_reads keys max_matches
        (read_calls (length data) chunk_size data fail_at) [] []
  end.

(** [detect_ai]. *)
Definition detect_ai (file : file_state) (readable_exif : ReadableExif)
    (do_deep_scan : bool) : bool * list pystr :=
  let '(exif_detected, reasons) := detect_ai_from_exif_readable readable_exif in
  if do_deep_scan then
    let deep_reasons := deep_scan_bytes file None 20 in
    (exif_detected || bool_decide (deep_reasons ≠ []), reasons ++ deep_reasons)
  else (exif_detected, reasons).

(** ** File extensions ([normalize_extensions]) *)

Definition SUPPORTED_EXTENSIONS : gset pystr :=
  {[ py ".jpg"; py ".jpeg"; py ".tif"; py ".tiff"; py ".webp" ]}.

(** [s.split(sep)] for a one-character separator: the texts between the
    separators, [cur] being the text read since the last one. *)
Fixpoint str_split (sep : N) (cur : pystr) (s : pystr) : list pystr :=
  match s with
  | [] => [cur]
  | c :: s' =>
      if (c =? sep)%N then cur :: str_split sep [] s'
      else str_split sep (cur ++ [c]) s'
  end.

(** [normalize_extensions]. *)
Definition normalize_extensions (exts : option pystr) : gset pystr :=
  match exts with
  | None | Some [] => SUPPORTED_EXTENSIONS
  | Some exts =>
      let parts :=
        (λ e, str_lower (strip e))
          <$> filter (λ e, strip e ≠ []) (str_split 44 [] exts) in
      list_to_set
        ((λ p, if starts_with (py ".") p then p else py "." ++ p) <$> parts)
  end.

(** ** Paths and the file system ([pathlib], [shutil])

    A path is its anchor (absolute or not) and its components. The file
    system maps the paths that exist to a regular file or a directory; the
    path without components (the root, or the working directory) is a
    directory that always exists.

    The store is a tree without links, keyed by the path as it is written:
    [".."] is a component like another, and a relative and an absolute
    spelling of one file are two keys. Two paths name two files when they
    are written without [".."] from one anchor ([plain]); the statements
    that tell the destination of a run from another path take such
    paths. *)
Abbreviation Path := (bool * list pystr)%type.

Inductive node : Type :=
| File (content : pybytes)
| Dir.

#[global] Instance node_eq_dec : EqDecision node.
Proof. solve_decision. Defined.

Abbreviation filesystem := (gmap (bool * list pystr) node).

(** [Path(s)] for a POSIX path: the components between the slashes, empty
    ones and ["."] dropped (the two-slash root of POSIX is read as the
    root). *)
Fixpoint split_slash (cur : pystr) (s : pystr) : list pystr :=
  match s with
  | [] => [cur]
  | c :: s' =>
      if (c =? 47)%N then cur :: split_slash [] s'
      else split_slash (cur ++ [c]) s'
  end.

Definition path_of_str (s : pystr) : Path :=
  (bool_decide (head s = Some 47%N),
   filter (λ c, c ≠ [] ∧ c ≠ py ".") (split_slash [] s)).

(** [p.name]. *)
Definition path_name (p : Path) : pystr := default [] (last (snd p)).

(** [p.name] as the relative path that [q / p.name] appends: nothing for
    a path without components. *)
Definition name_path (p : Path) : Path :=
  (false, match last (snd p) with Some n => [n] | None => [] end).

(** [p.parent]. *)
Definition path_parent (p : Path) : Path := (fst p, removelast (snd p)).

(** [p.is_absolute()]. *)
Definition is_absolute (p : Path) : bool := fst p.

(** [p.relative_to(base)]; [None] is the [ValueError]. *)
Definition relative_to (p base : Path) : option Path :=
  if decide (fst p = fst base ∧ take (length (snd base)) (snd p) = snd base)
  then Some (false, drop (length (snd base)) (snd p))
  else None.

(** [p / rel]. *)
Definition joinpath (p rel : Path) : Path :=
  if fst rel then rel else (fst p, snd p ++ snd rel).

(** [p.with_name(name)]; [None] is the [ValueError] for a path without a
    name or for a name that is empty or holds a slash. *)
Definition with_name (p : Path) (name : pystr) : option Path :=
  match snd p with
  | [] => None
  | _ =>
      if decide (name = [] ∨ 47%N ∈ name ∨ name = py ".") then None
      else Some (fst p, removelast (snd p) ++ [name])
  end.

Definition is_dir (fs : filesystem) (p : Path) : bool :=
  match snd p with
  | [] => true
  | _ => bool_decide (fs !! p = Some Dir)
  end.

Definition path_exists (fs : filesystem) (p : Path) : bool :=
  match snd p with
  | [] => true
  | _ => bool_decide (is_Some (fs !! p))
  end.

(** [p.mkdir(parents=True, exist_ok=True)]: the missing directories from the
    anchor down to [p] are created; a regular file on the way raises. The
    result is the file system afterwards and whether the call returned. *)
Fixpoint mkdir_from (anchor : bool) (above below : list pystr) (fs : filesystem)
    : filesystem * bool :=
  match below with
  | [] => (fs, true)
  | c :: below' =>
      let q := (anchor, above ++ [c]) in
      match fs !! q with
      | Some Dir => mkdir_from anchor (above ++ [c]) below' fs
      | Some (File _) => (fs, false)
      | None => mkdir_from anchor (above ++ [c]) below' (<[q := Dir]> fs)
      end
  end.

Definition mkdir_parents (p : Path) (fs : filesystem) : filesystem * bool :=
  mkdir_from (fst p) [] (snd p) fs.

(** [p.read_bytes()]. *)
Definition read_bytes (fs : filesystem) (p : Path) : option pybytes :=
  match fs !! p with
  | Some (File content) => Some content
  | _ => None
  end.

(** [p.write_bytes(data)]: [p] must not be a directory and its parent must
    be one. The call writes all of [data] or raises on opening the file; a
    write that raises after the file was opened, and leaves it empty or
    short, is not in the model, so nothing is stated about the destination
    of a run that reports a failed write. *)
Definition write_file (p : Path) (data : pybytes) (fs : filesystem)
    : option filesystem :=
  if is_dir fs p then None
  else if is_dir fs (path_parent p) then Some (<[p := File data]> fs)
  else None.

(** [shutil.copy2(src, dst)]: into the directory [dst] when it is one. The
    copy raises when [src] is no regular file or the parent of the target
    is no directory; it can raise for other reasons on a real disk
    (permissions), so a statement about the backup copy takes as a
    hypothesis that the copy returned. *)
Definition copy2 (src dst : Path) (fs : filesystem) : option filesystem :=
  match read_bytes fs src with
  | Some content =>
      let target :=
        if is_dir fs dst then joinpath dst (name_path src) else dst in
      write_file target content fs
  | None => None
  end.

(** ** The orchestrator ([src/actions.py], [src/cli.py]) *)

(** [ModifyOptions]. *)
Record ModifyOptions : Type := mkOptions {
  mo_strip_identifying : bool;
  mo_replace_camera : option pystr;
  mo_replace_extended : bool;
  mo_preserve_dates : bool;
  mo_anonymize_dates : bool;
  mo_remove_orientation : bool;
  mo_in_place : bool;
  mo_backup_ext : option pystr;
  mo_out_dir : option Path;
  mo_dry_run : bool;
  mo_base_input_dir : option Path
}.

(** The parsed command line, for the fields [build_modify_options] reads. *)
Record Args : Type := mkArgs {
  a_strip_identifying : bool;
  a_replace_camera : option pystr;
  a_replace_extended : bool;
  a_preserve_dates : bool;
  a_anonymize_dates : bool;
  a_remove_orientation : bool;
  a_in_place : bool;
  a_backup_ext : option pystr;
  a_out_dir : option pystr;
  a_dry_run : bool
}.


(** [validate_args], for the conflict of the output flags: the message when
    both [--in-place] and [--out-dir] come with a modification. *)
Definition output_flags_conflict (args : Args) : bool :=
  (a_strip_identifying args || truthy (a_replace_camera args)
   || a_replace_extended args)
  && a_in_place args && truthy (a_out_dir args).

(** The first step of [apply_strip_and_replace] on the loaded dict:
    ["# Strip identification metadata if requested"]. *)
Definition strip_step (opts : ModifyOptions) (exif : ExifDict) : ExifDict :=
  if mo_strip_identifying opts || truthy (mo_replace_camera opts)
     || mo_replace_extended opts
  then strip_identifying exif (mo_preserve_dates opts)
         (mo_anonymize_dates opts) (mo_remove_orientation opts)
  else exif.

(** The second step: ["# Replace camera if requested"]. *)
Definition replace_step (opts : ModifyOptions) (exif : ExifDict) : ExifDict :=
  if truthy (mo_replace_camera opts) then
    let '(profile, make, model) :=
      get_default_camera_profile (mo_replace_camera opts) in
    if mo_replace_extended opts
    then apply_extended_camera_profile exif profile make model
    else set_camera_make_model exif make model
  else exif.

(** Both steps, in the order of the source. *)
Definition transform_exif (opts : ModifyOptions) (exif : ExifDict) : ExifDict :=
  replace_step opts (strip_step opts exif).

(** [make_output_path]: the destination, the file system after the [mkdir]
    calls, and [None] for the destination when a [mkdir] raises. *)
Definition make_output_path (src : Path) (opts : ModifyOptions) (fs : filesystem)
    : filesystem * option Path :=
  match mo_out_dir opts with
  | Some out_dir =>
      if mo_in_place opts then (fs, Some src)
      else
        let '(fs, ok) := mkdir_parents out_dir fs in
        if ok then
          let rel :=
            match mo_base_input_dir opts with
            | Some base =>
                if is_absolute src
                then default (name_path src) (relative_to src base)
                else name_path src
            | None => name_path src
            end in
          let dest := joinpath out_dir rel in
          let '(fs, ok) := mkdir_parents (path_parent dest) fs in
          if ok then (fs, Some dest) else (fs, None)
        else (fs, None)
  | None => (fs, Some src)
  end.

(** The failures [apply_strip_and_replace] reports; the text of the source
    also carries the path and the text of the exception. *)
Inductive failure : Type :=
| NotSupported
| DumpInsertFailed
| WriteFailed.

(** How a call ends: with the tuple [(success, error_msg, dest_path)], or
    with an exception that leaves the function. *)
Inductive outcome : Type :=
| Returned (success : bool) (error_msg : option failure) (dest_path : option Path)
| Raised.

Definition SUPPORTED_FORMATS : gset pystr :=
  {[ py "JPEG"; py "TIFF"; py "WEBP" ]}.

(** [is_format_supported_for_exif]. *)
Definition is_format_supported_for_exif (fmt : option pystr) : bool :=
  match fmt with
  | Some f => bool_decide (f ∈ SUPPORTED_FORMATS)
  | None => false
  end.

Section Orchestrator.

(** The libraries behind the orchestrator: Pillow names the format of an
    image file, piexif parses, serialises and splices the EXIF block. Each
    is a function of the bytes it is given; [None] is its exception. *)
Variable image_format : pybytes → option pystr.
Variable piexif_load : pybytes → option ExifDict.
Variable piexif_dump : ExifDict → option pybytes.
Variable piexif_insert : pybytes → pybytes → option pybytes.

(** [get_image_info(path)["format"]]. *)
Definition get_image_format (fs : filesystem) (path : Path) : option pystr :=
  read_bytes fs path ≫= image_format.

(** [is_supported_for_write]. *)
Definition is_supported_for_write (fs : filesystem) (path : Path) : bool :=
  is_format_supported_for_exif (get_image_format fs path).

(** [load_exif_dict]. *)
Definition load_exif_dict (fs : filesystem) (path : Path) : option ExifDict :=
  exif ← read_bytes fs path ≫= piexif_load;
  Some (mkExif (setdefault ∅ (ex_0th exif)) (setdefault ∅ (ex_Exif exif))
               (setdefault ∅ (ex_GPS exif)) (setdefault ∅ (ex_1st exif))
               (setdefault None (ex_thumbnail exif))).

(** [write_exif_to_image_bytes]. *)
Definition write_exif_to_image_bytes (fs : filesystem) (source_path : Path)
    (exif : ExifDict) : option pybytes :=
  exif_bytes ← piexif_dump (ensure_exif_structure (Some exif));
  data ← read_bytes fs source_path;
  piexif_insert exif_bytes data.

(** [write_exif_to_file]. *)
Definition write_exif_to_file (source_path dest_path : Path) (exif : ExifDict)
    (fs : filesystem) : option filesystem :=
  exif_bytes ← piexif_dump (ensure_exif_structure (Some exif));
  data ← read_bytes fs source_path;
  new_data ← piexif_insert exif_bytes data;
  write_file dest_path new_data fs.

(** [write_bytes]: the file system afterwards, and whether the call
    returned ([false]: it raised). The backup copy stays when the write
    after it raises. *)
Definition write_bytes (dest : Path) (data : pybytes) (opts : ModifyOptions)
    (fs : filesystem) : filesystem * bool :=
  if mo_in_place opts then
    let backed_up :=
      if truthy (mo_backup_ext opts) then
        match with_name dest (path_name dest ++ default [] (mo_backup_ext opts)) with
        | Some backup =>
            if path_exists fs dest
            then Some (default fs (copy2 dest backup fs))
            else Some fs
        | None => None
        end
      else Some fs in
    match backed_up with
    | None => (fs, false)
    | Some fs1 =>
        if negb (mo_dry_run opts) then
          match write_file dest data fs1 with
          | Some fs2 => (fs2, true)
          | None => (fs1, false)
          end
        else (fs1, true)
    end
  else
    if negb (mo_dry_run opts) then
      let '(fs1, ok) := mkdir_parents (path_parent dest) fs in
      if ok then
        match write_file dest data fs1 with
        | Some fs2 => (fs2, true)
        | None => (fs1, false)
        end
      else (fs1, false)
    else (fs, true).

(** [apply_strip_and_replace]: the file system afterwards and how the call
    ends. *)
Definition apply_strip_and_replace (src : Path) (opts : ModifyOptions)
    (fs : filesystem) : filesystem * outcome :=
  if negb (is_supported_for_write fs src) then
    (fs, Returned false (Some NotSupported) None)
  else
    let exif := default (ensure_exif_structure (Some empty_exif))
                  (load_exif_dict fs src) in
    let exif := transform_exif opts exif in
    if mo_dry_run opts then
      match make_output_path src opts fs with
      | (fs, Some dest) => (fs, Returned true None (Some dest))
      | (fs, None) => (fs, Raised)
      end
    else
      match make_output_path src opts fs with
      | (fs, None) => (fs, Raised)
      | (fs, Some dest) =>
          if bool_decide (is_Some (mo_out_dir opts)) && bool_decide (dest ≠ src) then
            let '(fs1, ok) := mkdir_parents (path_parent dest) fs in
            match (if ok then write_exif_to_file src dest exif fs1 else None) with
            | Some fs2 => (fs2, Returned true None (Some dest))
            | None => (fs1, Returned false (Some WriteFailed) (Some dest))
            end
          else
            match write_exif_to_image_bytes fs src exif with
            | None => (fs, Returned false (Some DumpInsertFailed) None)
            | Some data_out =>
                match write_bytes dest data_out opts fs with
                | (fs', true) => (fs', Returned true None (Some dest))
                | (fs', false) =>
                    (fs', Returned false (Some WriteFailed) (Some dest))
                end
            end
      end.

End Orchestrator.

(** ** Notions used in the statements *)

(** The IFD [m] without the tags of [X]. *)
Definition without (X : gset Z) (m : ifd) : ifd :=
  filter (λ kv, kv.1 ∉ X) m.

(** The date policy of [strip_identifying] removes the date fields. *)
Definition dates_removed (preserve_dates anonymize_dates : bool) : bool :=
  anonymize_dates || negb preserve_dates.

(** The tags [strip_identifying] removes from the primary group. *)
Definition removed_0th (preserve_dates anonymize_dates remove_orientation : bool)
    : gset Z :=
  tags_0th_remove remove_orientation
  ∪ (if dates_removed preserve_dates anonymize_dates
     then {[ ImageIFD.DateTime ]} else ∅).

(** The tags [strip_identifying] removes from the capture group. *)
Definition removed_Exif (preserve_dates anonymize_dates : bool) : gset Z :=
  tags_exif_remove
  ∪ (if dates_removed preserve_dates anonymize_dates
     then {[ ExifIFD.DateTimeOriginal; ExifIFD.DateTimeDigitized ]} else ∅).

(** The destination that an outcome reports, if it reports one. *)
Definition reported_dest (o : outcome) : option Path :=
  match o with
  | Returned _ _ dest_path => dest_path
  | Raised => None
  end.

(** What a run does to a path it does not write: the entry is kept, or a
    directory is created where nothing was. *)
Definition kept_or_new_dir (fs fs' : filesystem) (p : Path) : Prop :=
  fs' !! p = fs !! p ∨ (fs !! p = None ∧ fs' !! p = Some Dir).

(** Text of ASCII characters. *)
Definition ascii (s : pystr) : Prop := Forall (λ c, (c < 128)%N) s.

(** [s.lower()] for a text of ASCII characters: the capitals [A] to [Z]
    become small letters, nothing else changes. *)
Definition ascii_lower (s : pystr) : pystr :=
  (λ c, if ((65 <=? c) && (c <=? 90))%N then (c + 32)%N else c) <$> s.

(** The extra keywords of a scan are ASCII text. *)
Definition ascii_keywords (extra_keywords : option (list pystr)) : Prop :=
  Forall ascii (default [] extra_keywords).

(** A path written without [".."]. *)
Definition plain (p : Path) : Prop := py ".." ∉ p.2.

(** The UTF-16LE form of a text of code points below 65536: two bytes a
    code point, the low byte first. *)
Definition utf16le_units (s : pystr) : pybytes :=
  s ≫= λ c, [byte_of_N (c mod 256); byte_of_N (c / 256)].

(** The matches a window leaves, however its loop ends. *)
Definition matches_of (r : window_result) : list pystr :=
  match r with
  | Next matches => matches
  | Stop matches => matches
  end.

(** The bytes that a sequence of read calls hands to the scan: the chunks
    up to the end of the file, or up to the read that raises. *)
Fixpoint bytes_read (reads : list read_outcome) : pybytes :=
  match reads with
  | ReadOk chunk :: reads' => chunk ++ bytes_read reads'
  | _ => []
  end.

(** Every key has a UTF-8 form: no [UnicodeEncodeError] in the scan. *)
Definition encodable (keys : list pystr) : Prop :=
  Forall (λ k, is_Some (utf8_encode k)) keys.

(** * Properties *)

(** ** Removing tags *)

Lemma pop_if_present_delete (t : Z) (m : ifd) :
  pop_if_present t m = delete t m.
Proof.
  unfold pop_if_present. case_decide as H; [done|].
  symmetry. apply delete_id. by apply eq_None_not_Some.
Qed.

Lemma foldr_pop_lookup (l : list Z) (m : ifd) (k : Z) :
  foldr pop_if_present m l !! k = if decide (k ∈ l) then None else m !! k.
Proof.
  induction l as [|t l IH]; simpl; [done|].
  rewrite pop_if_present_delete, lookup_delete.
  destruct (decide (t = k)) as [->|Hne].
  - rewrite decide_True by left. done.
  - rewrite IH. repeat case_decide; try done; set_solver.
Qed.

Lemma without_lookup (X : gset Z) (m : ifd) (k : Z) :
  without X m !! k = if decide (k ∈ X) then None else m !! k.
Proof.
  unfold without. rewrite map_lookup_filter.
  destruct (m !! k) as [v|]; simpl.
  - case_decide.
    + by rewrite option_guard_False by (simpl; tauto).
    + by rewrite option_guard_True.
  - by case_decide.
Qed.

Lemma set_fold_pop (X : gset Z) (m : ifd) :
  set_fold pop_if_present m X = without X m.
Proof.
  apply map_eq. intros k. rewrite without_lookup.
  unfold set_fold. simpl. rewrite foldr_pop_lookup.
  repeat case_decide; try done; set_solver.
Qed.

Lemma without_delete (X : gset Z) (t : Z) (m : ifd) :
  delete t (without X m) = without ({[ t ]} ∪ X) m.
Proof.
  apply map_eq. intros k.
  rewrite lookup_delete, !without_lookup.
  repeat case_decide; try done; set_solver.
Qed.

Lemma without_without (X Y : gset Z) (m : ifd) :
  without X (without Y m) = without (X ∪ Y) m.
Proof.
  apply map_eq. intros k. rewrite !without_lookup.
  repeat case_decide; try done; set_solver.
Qed.

Lemma without_proper (X Y : gset Z) (m : ifd) :
  X = Y → without X m = without Y m.
Proof. by intros ->. Qed.

(** [strip_identifying] in closed form: every group exists afterwards, the
    primary and the capture group lose their removed tags, the other two
    groups are empty and the thumbnail is [None]. *)
Lemma strip_identifying_closed_form (exif : ExifDict) (pd ad ro : bool) :
  strip_identifying exif pd ad ro =
  mkExif (Some (without (removed_0th pd ad ro) (exif_get K0th exif)))
         (Some (without (removed_Exif pd ad) (exif_get KExif exif)))
         (Some ∅) (Some ∅) (Some None).
Proof.
  destruct exif as [z e g f t].
  unfold strip_identifying, removed_0th, removed_Exif, dates_removed.
  unfold remove_tags, pop_dates, exif_pop, exif_get. simpl.
  destruct z as [z|], e as [e|]; simpl; rewrite !set_fold_pop;
    destruct ad, pd; simpl; rewrite ?without_delete;
    f_equal; f_equal; apply without_proper; set_solver.
Qed.

(** ** [strip_identifying] *)

(** C3: for every document and every choice of the flags, after
    [strip_identifying] the location (GPS) group is empty, the thumbnail
    (1st) group is empty and the thumbnail blob is [None]; group and blob
    are cleared together. *)
Theorem strip_identifying_clears_location_and_thumbnail
    (exif : ExifDict) (preserve_dates anonymize_dates remove_orientation : bool) :
  let out :=
    strip_identifying exif preserve_dates anonymize_dates remove_orientation in
  ex_GPS out = Some ∅ ∧ ex_1st out = Some ∅ ∧ ex_thumbnail out = Some None.
Proof. intros out. unfold out. by rewrite strip_identifying_closed_form. Qed.

(** C4: [strip_identifying] is idempotent for every document and every
    fixed choice of the three flags. *)
Theorem strip_identifying_idempotent
    (exif : ExifDict) (preserve_dates anonymize_dates remove_orientation : bool) :
  strip_identifying
    (strip_identifying exif preserve_dates anonymize_dates remove_orientation)
    preserve_dates anonymize_dates remove_orientation
  = strip_identifying exif preserve_dates anonymize_dates remove_orientation.
Proof.
  rewrite !strip_identifying_closed_form. unfold exif_get. simpl.
  rewrite !without_without.
  f_equal; f_equal; apply without_proper; set_solver.
Qed.

(** ** Writing tags *)

Lemma exif_get_ensure (k : ifd_key) (exif : ExifDict) :
  exif_get k (ensure_exif_structure (Some exif)) = exif_get k exif.
Proof. destruct exif as [[?|] [?|] [?|] [?|] ?], k; reflexivity. Qed.

Lemma ensure_exif_structure_idemp (exif : ExifDict) :
  ensure_exif_structure (Some (ensure_exif_structure (Some exif)))
  = ensure_exif_structure (Some exif).
Proof. destruct exif as [[?|] [?|] [?|] [?|] [?|]]; reflexivity. Qed.

Lemma exif_get_store (k k' : ifd_key) (m : ifd) (exif : ExifDict) :
  exif_get k' (exif_store k m exif) = if decide (k = k') then m else exif_get k' exif.
Proof. destruct k, k'; reflexivity. Qed.

Lemma exif_get_set (k k' : ifd_key) (t t' : Z) (v : tagvalue) (exif : ExifDict) :
  exif_get k' (exif_set k t v exif) !! t'
  = if decide (k = k' ∧ t = t') then Some v else exif_get k' exif !! t'.
Proof.
  unfold exif_set. rewrite exif_get_store.
  destruct (decide (k = k')) as [->|Hk].
  - rewrite lookup_insert. repeat case_decide; naive_solver.
  - case_decide; naive_solver.
Qed.

Lemma thumbnail_store (k : ifd_key) (m : ifd) (exif : ExifDict) :
  ex_thumbnail (exif_store k m exif) = ex_thumbnail exif.
Proof. by destruct k. Qed.

Lemma thumbnail_set (k : ifd_key) (t : Z) (v : tagvalue) (exif : ExifDict) :
  ex_thumbnail (exif_set k t v exif) = ex_thumbnail exif.
Proof. apply thumbnail_store. Qed.

Lemma set_camera_make_model_lookup (exif : ExifDict) (make model : pystr)
    (k : ifd_key) (t : Z) :
  exif_get k (set_camera_make_model exif make model) !! t
  = if decide (k = K0th ∧ t = ImageIFD.Model) then Some (VStr model)
    else if decide (k = K0th ∧ t = ImageIFD.Make) then Some (VStr make)
    else exif_get k exif !! t.
Proof.
  unfold set_camera_make_model. rewrite !exif_get_set, exif_get_ensure.
  repeat case_decide; naive_solver.
Qed.

Lemma set_camera_make_model_thumbnail (exif : ExifDict) (make model : pystr) :
  ex_thumbnail (set_camera_make_model exif make model)
  = setdefault None (ex_thumbnail exif).
Proof. by destruct exif. Qed.

(** The tags [apply_extended_camera_profile] writes, whatever the profile. *)
Lemma apply_extended_camera_profile_lookup (exif : ExifDict)
    (profile make model : pystr) (k : ifd_key) (t : Z) :
  exif_get k (apply_extended_camera_profile exif profile make model) !! t
  = let key := str_lower profile in
    let named := bool_decide (key = py "canon") || bool_decide (key = py "iphone") in
    if decide (k = K0th ∧ t = ImageIFD.Software) then
      Some (VStr (if decide (key = py "canon") then py "Canon Firmware"
                  else if decide (key = py "iphone") then py "Apple iOS"
                  else py "Camera System"))
    else if decide (k = KExif ∧ t = ExifIFD.LensModel ∧ named = true) then
      Some (VStr (if decide (key = py "canon") then py "EF 50mm f/1.8"
                  else py "iPhone 14 Pro back camera 24mm f/1.78"))
    else if decide (k = KExif ∧ t = ExifIFD.LensMake ∧ named = true) then
      Some (VStr (if decide (key = py "canon") then py "Canon" else py "Apple"))
    else if decide (k = KExif ∧ t = ExifIFD.ISOSpeedRatings) then Some (VInt 100)
    else if decide (k = KExif ∧ t = ExifIFD.FocalLength) then Some (VRational 50 1)
    else if decide (k = KExif ∧ t = ExifIFD.ExposureTime) then Some (VRational 1 125)
    else if decide (k = KExif ∧ t = ExifIFD.FNumber) then Some (VRational 28 10)
    else if decide (k = K0th ∧ t = ImageIFD.Model) then Some (VStr model)
    else if decide (k = K0th ∧ t = ImageIFD.Make) then Some (VStr make)
    else exif_get k exif !! t.
Proof.
  unfold apply_extended_camera_profile. cbv zeta.
  destruct (decide (str_lower profile = py "canon")) as [Hc|Hc];
    [|destruct (decide (str_lower profile = py "iphone")) as [Hi|Hi]];
    rewrite !exif_get_set, set_camera_make_model_lookup, !exif_get_ensure;
    rewrite ?bool_decide_eq_true_2, ?bool_decide_eq_false_2 by done;
    cbn [orb]; repeat case_decide; try done; naive_solver.
Qed.

(** ** [apply_extended_camera_profile] *)

(** The three rows of the profile table: [canon], [iphone], any other key. *)
Ltac profile_cases key :=
  let Hc := fresh "Hcanon" in
  let Hi := fresh "Hiphone" in
  destruct (decide (key = py "canon")) as [Hc|Hc];
  [ rewrite ?(bool_decide_eq_true_2 _ Hc)
  | destruct (decide (key = py "iphone")) as [Hi|Hi];
    [ rewrite ?(bool_decide_eq_false_2 _ Hc), ?(bool_decide_eq_true_2 _ Hi)
    | rewrite ?(bool_decide_eq_false_2 _ Hc), ?(bool_decide_eq_false_2 _ Hi) ] ].

(** C8, as the code has it: for every document and every profile key,
    [apply_extended_camera_profile] sets make and model of the primary group
    as [set_camera_make_model] does, sets FNumber 28/10, ExposureTime 1/125,
    FocalLength 50/1 and ISOSpeedRatings 100 in the capture group, and sets
    the software text by the profile table: "Canon Firmware" for [canon],
    "Apple iOS" for [iphone], "Camera System" for every other key. The lens
    make and the lens model are set for the two named profiles only (for
    [iphone]: "Apple" and the fixed Apple lens text); for every other key
    they stay as they were in the document. The location group, the
    thumbnail group and the thumbnail are not touched. *)
Theorem apply_extended_camera_profile_table
    (exif : ExifDict) (profile make model : pystr) :
  let out := apply_extended_camera_profile exif profile make model in
  let key := str_lower profile in
  exif_get K0th out !! ImageIFD.Make = Some (VStr make)
  ∧ exif_get K0th out !! ImageIFD.Model = Some (VStr model)
  ∧ exif_get KExif out !! ExifIFD.FNumber = Some (VRational 28 10)
  ∧ exif_get KExif out !! ExifIFD.ExposureTime = Some (VRational 1 125)
  ∧ exif_get KExif out !! ExifIFD.FocalLength = Some (VRational 50 1)
  ∧ exif_get KExif out !! ExifIFD.ISOSpeedRatings = Some (VInt 100)
  ∧ exif_get K0th out !! ImageIFD.Software
    = Some (VStr (if decide (key = py "canon") then py "Canon Firmware"
                  else if decide (key = py "iphone") then py "Apple iOS"
                  else py "Camera System"))
  ∧ exif_get KExif out !! ExifIFD.LensMake
    = (if decide (key = py "canon") then Some (VStr (py "Canon"))
       else if decide (key = py "iphone") then Some (VStr (py "Apple"))
       else exif_get KExif exif !! ExifIFD.LensMake)
  ∧ exif_get KExif out !! ExifIFD.LensModel
    = (if decide (key = py "canon") then Some (VStr (py "EF 50mm f/1.8"))
       else if decide (key = py "iphone")
            then Some (VStr (py "iPhone 14 Pro back camera 24mm f/1.78"))
       else exif_get KExif exif !! ExifIFD.LensModel)
  ∧ exif_get KGPS out = exif_get KGPS exif
  ∧ exif_get K1st out = exif_get K1st exif
  ∧ ex_thumbnail out = setdefault None (ex_thumbnail exif).
Proof.
  intros out key. unfold out.
  repeat split;
    try (rewrite apply_extended_camera_profile_lookup; fold key; cbv zeta;
         profile_cases key; reflexivity);
    try (apply map_eq; intros t; rewrite apply_extended_camera_profile_lookup;
         cbv zeta; repeat case_decide; naive_solver).
  unfold apply_extended_camera_profile. cbv zeta.
  repeat case_decide; rewrite !thumbnail_set, set_camera_make_model_thumbnail;
    by destruct exif as [? ? ? ? [?|]].
Qed.

(** C8, the claim as it is written, fails: with a key outside the table the
    call sets neither lens make nor lens model. *)
Lemma generic_profile_sets_no_lens :
  let out := apply_extended_camera_profile empty_exif
               (py "custom") (py "Sony") (py "A7IV") in
  ¬ is_Some (exif_get KExif out !! ExifIFD.LensMake)
  ∧ ¬ is_Some (exif_get KExif out !! ExifIFD.LensModel).
Proof.
  cbv zeta. rewrite !apply_extended_camera_profile_lookup.
  split; intros [v Hv]; vm_compute in Hv; discriminate.
Qed.

(** ** Replacement runs after the strip pass *)

Lemma replace_step_keeps_groups (opts : ModifyOptions) (exif : ExifDict)
    (g f : ifd) (th : option pybytes) :
  ex_GPS exif = Some g → ex_1st exif = Some f → ex_thumbnail exif = Some th →
  let out := replace_step opts exif in
  ex_GPS out = Some g ∧ ex_1st out = Some f ∧ ex_thumbnail out = Some th.
Proof.
  destruct exif as [z e g' f' t']. simpl. intros -> -> ->.
  unfold replace_step.
  destruct (truthy (mo_replace_camera opts)); [|done].
  destruct (get_default_camera_profile (mo_replace_camera opts)) as [[p mk] md].
  destruct (mo_replace_extended opts); [|done].
  unfold apply_extended_camera_profile. cbv zeta.
  repeat case_decide; done.
Qed.




(** ** Decoding byte strings *)

(** With ["ignore"] a decoder never raises. *)
Lemma on_error_ignore_is_Some (rest : option pystr) :
  is_Some rest → is_Some (on_error Ignore rest).
Proof. done. Qed.

Lemma utf8_decode_ignore_bounded (n : nat) (s : pybytes) :
  (length s ≤ n)%nat → is_Some (utf8_decode Ignore s).
Proof.
  revert s. induction n as [|n IH]; intros s Hlen.
  { destruct s; [by eexists | simpl in Hlen; lia]. }
  destruct s as [|b1 t1]; [by eexists|].
  assert (H1 : is_Some (utf8_decode Ignore t1)) by (apply IH; simpl in *; lia).
  assert (Hnil : is_Some (Some ([] : pystr))) by by eexists.
  simpl.
  repeat
    match goal with
    | |- is_Some (on_error Ignore _) => apply on_error_ignore_is_Some
    | |- is_Some (cons _ <$> _) => apply fmap_is_Some
    | |- is_Some (utf8_decode Ignore ?t) => apply IH; simpl in *; lia
    | |- is_Some (Some _) => by eexists
    | |- is_Some (if ?c then _ else _) => destruct c
    | |- is_Some (match ?t with [] => _ | _ :: _ => _ end) =>
        destruct t; simpl in Hlen
    end.
Qed.

Lemma utf8_decode_ignore_total (s : pybytes) : is_Some (utf8_decode Ignore s).
Proof. by apply (utf8_decode_ignore_bounded (length s)). Qed.

Lemma utf16le_decode_ignore_bounded (n : nat) (s : pybytes) :
  (length s ≤ n)%nat → is_Some (utf16le_decode Ignore s).
Proof.
  revert s. induction n as [|n IH]; intros s Hlen.
  { destruct s; [by eexists | simpl in Hlen; lia]. }
  destruct s as [|lo [|hi rest]]; [by eexists..|].
  simpl.
  repeat
    match goal with
    | |- is_Some (on_error Ignore _) => apply on_error_ignore_is_Some
    | |- is_Some (cons _ <$> _) => apply fmap_is_Some
    | |- is_Some (utf16le_decode Ignore ?t) => apply IH; simpl in *; lia
    | |- is_Some (Some _) => by eexists
    | |- is_Some (if ?c then _ else _) => destruct c
    | |- is_Some (match ?t with [] => _ | _ :: _ => _ end) =>
        destruct t; simpl in Hlen
    end.
Qed.

Lemma utf16le_decode_ignore_total (s : pybytes) :
  is_Some (utf16le_decode Ignore s).
Proof. by apply (utf16le_decode_ignore_bounded (length s)). Qed.

(** The fallback chain always ends at its first step: the Latin-1 decoding
    and the hex preview are never the result. *)
Lemma decode_fallback_chain_is_utf8 (value : pybytes) :
  utf8_decode Ignore value = Some (decode_fallback_chain value).
Proof.
  unfold decode_fallback_chain.
  by destruct (utf8_decode_ignore_total value) as [s ->].
Qed.

(** The XP tags are read as UTF-16LE with the trailing NULs trimmed. *)
Lemma decode_bytes_value_xp (tag : Z) (value : pybytes) :
  tag ∈ XP_TAGS →
  rstrip_nul <$> utf16le_decode Ignore value = Some (_decode_bytes_value tag value).
Proof.
  intros Htag. unfold _decode_bytes_value. rewrite decide_True by done.
  by destruct (utf16le_decode_ignore_total value) as [s ->].
Qed.

(** Every other tag is read as UTF-8 with the malformed bytes dropped. *)
Lemma decode_bytes_value_other (tag : Z) (value : pybytes) :
  tag ∉ XP_TAGS →
  utf8_decode Ignore value = Some (_decode_bytes_value tag value).
Proof.
  intros Htag. unfold _decode_bytes_value. rewrite decide_False by done.
  apply decode_fallback_chain_is_utf8.
Qed.

(** C5 at a failing input: the artist name "André" in Latin-1, the bytes
    [41 6e 64 72 e9]. They are not UTF-8, and their Latin-1 reading is the
    five-letter name; [_decode_bytes_value] returns the four letters "Andr",
    neither the Latin-1 reading nor a hex preview. *)
Theorem decode_bytes_value_drops_latin1_byte :
  let value := pyb "Andr" ++ [xe9] in
  utf8_decode Strict value = None
  ∧ latin1_decode Strict value = Some (py "Andr" ++ [233%N])
  ∧ _decode_bytes_value ImageIFD.Artist value = py "Andr".
Proof. repeat split. Qed.

(** ** Substring search *)

Lemma starts_with_spec {A} `{EqDecision A} (p l : list A) :
  starts_with p l = true ↔ ∃ post, l = p ++ post.
Proof.
  revert l. induction p as [|x p IH]; intros l; simpl.
  - split; [by exists l | done].
  - destruct l as [|y l].
    + split; [done | by intros [? ?]].
    + rewrite andb_true_iff, bool_decide_eq_true, IH. split.
      * intros [-> [post ->]]. by exists post.
      * intros [post [= -> ->]]. split; [done | by exists post].
Qed.

Lemma contains_spec {A} `{EqDecision A} (needle hay : list A) :
  contains needle hay = true ↔ ∃ pre post, hay = pre ++ needle ++ post.
Proof.
  induction hay as [|y hay IH]; simpl.
  - rewrite orb_false_r, starts_with_spec. split.
    + intros [post ->]. by exists [], post.
    + intros [pre [post Heq]]. symmetry in Heq.
      apply app_eq_nil in Heq as [-> Heq]. by exists post.
  - rewrite orb_true_iff, starts_with_spec, IH. split.
    + intros [[post ->] | [pre [post ->]]].
      * by exists [], post.
      * by exists (y :: pre), post.
    + intros [[|z pre] [post Heq]].
      * left. by exists post.
      * right. injection Heq as -> ->. by exists pre, post.
Qed.

(** ** Sorting the matched keywords *)




(** ** [detect_ai_from_exif_readable] *)



(** ** The deep byte scan *)

Lemma contains_drop {A} `{EqDecision A} (needle hay : list A) (d : nat) :
  contains needle (drop d hay) = true → contains needle hay = true.
Proof.
  rewrite !contains_spec. intros (pre & post & Heq).
  exists (take d hay ++ pre), post.
  rewrite <- (take_drop d hay) at 1. rewrite Heq. by rewrite <- app_assoc.
Qed.

(** The overlap: an occurrence of at most [n + 1] bytes that does not lie
    within the window lies within the last [n] bytes of the window and what
    is read next. *)
Lemma overlap_keeps_occurrence (needle window next : pybytes) (n : nat) :
  (length needle ≤ S n)%nat →
  contains needle window = false →
  contains needle (window ++ next) = true →
  contains needle (last_bytes n window ++ next) = true.
Proof.
  intros Hlen Hout Hin. apply contains_spec in Hin as (pre & post & Heq).
  unfold last_bytes. set (d := (length window - n)%nat).
  assert (Hpre : (d ≤ length pre)%nat).
  { destruct (decide (length pre + length needle ≤ length window)%nat) as [Hle|]; [|lia].
    exfalso. assert (contains needle window = true); [|congruence].
    apply contains_spec. exists pre, (drop (length pre + length needle) window).
    rewrite <- (take_drop (length pre + length needle) window) at 1.
    rewrite app_assoc. f_equal.
    transitivity (take (length pre + length needle) (window ++ next)).
    { symmetry. apply take_app_le. lia. }
    rewrite Heq, app_assoc, <- length_app. apply take_app_length. }
  apply contains_spec. exists (drop d pre), post.
  transitivity (drop d (window ++ next)).
  { symmetry. apply drop_app_le. unfold d. lia. }
  rewrite Heq. by apply drop_app_le.
Qed.

Lemma bytes_lower_app (a b : pybytes) :
  bytes_lower (a ++ b) = bytes_lower a ++ bytes_lower b.
Proof. apply fmap_app. Qed.

Lemma bytes_lower_last_bytes (n : nat) (w : pybytes) :
  bytes_lower (last_bytes n w) = last_bytes n (bytes_lower w).
Proof. unfold last_bytes, bytes_lower. by rewrite fmap_drop, length_fmap. Qed.

(** One window: the matches only grow; when the loop runs to its end every
    key that occurs in the window has its message; the loop is left early
    only with [max_matches] messages. *)
Lemma scan_window_spec (keys : list pystr) (low : pybytes) (max_matches : Z)
    (matches : list pystr) :
  encodable keys →
  match scan_window keys low max_matches matches with
  | Next matches' =>
      (∃ ext, matches' = matches ++ ext)
      ∧ ∀ kw kb, kw ∈ keys → utf8_encode kw = Some kb →
                 contains kb low = true → found_msg kw ∈ matches'
  | Stop matches' =>
      (∃ ext, matches' = matches ++ ext)
      ∧ max_matches ≤ Z.of_nat (length matches')
  end.
Proof.
  intros Henc. revert matches.
  induction Henc as [|k keys [kb Hkb] Henc IH]; intros matches; simpl.
  { split; [by exists []; rewrite app_nil_r|]. by intros kw kb' ?%elem_of_nil. }
  rewrite Hkb.
  assert (Hgrow : ∀ m (r : window_result),
             match r with
             | Next m' => (∃ ext, m' = m ++ ext)
                 ∧ ∀ kw kb', kw ∈ keys → utf8_encode kw = Some kb' →
                             contains kb' low = true → found_msg kw ∈ m'
             | Stop m' => (∃ ext, m' = m ++ ext)
                 ∧ max_matches ≤ Z.of_nat (length m')
             end →
             (∃ pre, m = matches ++ pre) →
             (contains kb low = true → found_msg k ∈ m) →
             match r with
             | Next m' => (∃ ext, m' = matches ++ ext)
                 ∧ ∀ kw kb', kw ∈ k :: keys → utf8_encode kw = Some kb' →
                             contains kb' low = true → found_msg kw ∈ m'
             | Stop m' => (∃ ext, m' = matches ++ ext)
                 ∧ max_matches ≤ Z.of_nat (length m')
             end).
  { intros m r Hr [pre ->] Hk. destruct r as [m'|m'].
    - destruct Hr as [[ext ->] Hall]. split.
      + exists (pre ++ ext). by rewrite app_assoc.
      + intros kw kb' [->|Hin]%elem_of_cons Hkw Hc.
        * rewrite Hkb in Hkw. injection Hkw as <-.
          apply elem_of_app. left. by apply Hk.
        * by eapply Hall.
    - destruct Hr as [[ext ->] Hmax]. split; [|done].
      exists (pre ++ ext). by rewrite app_assoc. }
  destruct (contains kb low) eqn:Hc.
  - case_decide as Hin.
    + apply (Hgrow matches); [apply IH | by exists []; rewrite app_nil_r | done].
    + case_decide as Hmax.
      * split; [by eexists | done].
      * apply (Hgrow (matches ++ [found_msg k])); [apply IH | by eexists |].
        intros _. apply elem_of_app. right. by apply list_elem_of_singleton.
  - apply (Hgrow matches); [apply IH | by exists []; rewrite app_nil_r | done].
Qed.

Lemma scan_reads_cons (keys : list pystr) (max_matches : Z) (chunk : pybytes)
    (reads : list read_outcome) (leftover : pybytes) (matches : list pystr) :
  chunk ≠ [] →
  scan_reads keys max_matches (ReadOk chunk :: reads) leftover matches
  = match scan_window keys (bytes_lower (leftover ++ chunk)) max_matches matches with
    | Stop matches' => matches'
    | Next matches' =>
        scan_reads keys max_matches reads (last_bytes 64 (leftover ++ chunk)) matches'
    end.
Proof. by destruct chunk. Qed.

(** The matches of the whole scan extend the matches it starts from. *)
Lemma scan_reads_extends (keys : list pystr) (max_matches : Z)
    (reads : list read_outcome) (leftover : pybytes) (matches : list pystr) :
  encodable keys →
  ∃ ext, scan_reads keys max_matches reads leftover matches = matches ++ ext.
Proof.
  intros Henc. revert leftover matches.
  induction reads as [|[chunk|] reads IH]; intros leftover matches.
  - exists []. by rewrite app_nil_r.
  - destruct (decide (chunk = [])) as [->|Hne].
    { exists []. by rewrite app_nil_r. }
    rewrite scan_reads_cons by done.
    pose proof (scan_window_spec keys (bytes_lower (leftover ++ chunk))
                  max_matches matches Henc) as Hw.
    destruct (scan_window _ _ _ _) as [m'|m'].
    + destruct Hw as [[ext ->] _].
      destruct (IH (last_bytes 64 (leftover ++ chunk)) (matches ++ ext)) as [ext' ->].
      exists (ext ++ ext'). by rewrite app_assoc.
    + by destruct Hw as [Hext _].
  - exists []. by rewrite app_nil_r.
Qed.

(** *** Reading the file *)

Lemma read_calls_nil (fuel n : nat) : read_calls fuel n [] None = [].
Proof. by destruct fuel. Qed.

Lemma read_calls_some (fuel n : nat) (data : pybytes) :
  data ≠ [] →
  read_calls (S fuel) n data None
  = ReadOk (take n data) :: read_calls fuel n (drop n data) None.
Proof. by destruct data. Qed.

(** Without a failure the reads return the file in non-empty chunks. *)
Lemma read_calls_chunks (n fuel : nat) (data : pybytes) :
  (0 < n)%nat → (length data ≤ fuel)%nat →
  ∃ chunks, read_calls fuel n data None = ReadOk <$> chunks
            ∧ concat chunks = data ∧ Forall (λ c, c ≠ []) chunks.
Proof.
  intros Hn. revert data. induction fuel as [|fuel IH]; intros data Hlen.
  - destruct data; [|simpl in Hlen; lia]. by exists [].
  - destruct data as [|b data]; [by exists []|].
    rewrite read_calls_some by done.
    destruct (IH (drop n (b :: data))) as (chunks & Hr & Hc & Hne).
    { rewrite length_drop. simpl in *. lia. }
    exists (take n (b :: data) :: chunks). split; [by rewrite Hr|]. split.
    + simpl concat. rewrite Hc. apply take_drop.
    + constructor; [|done]. destruct n; [lia | done].
Qed.

(** *** A keyword that occurs in the file *)

Lemma scan_reads_finds (keys : list pystr) (max_matches : Z) (kw : pystr)
    (kb : pybytes) (chunks : list pybytes) :
  encodable keys → kw ∈ keys → utf8_encode kw = Some kb →
  (length kb ≤ 65)%nat →
  Forall (λ c, c ≠ []) chunks →
  ∀ leftover matches,
    contains kb (bytes_lower leftover) = false →
    contains kb (bytes_lower (leftover ++ concat chunks)) = true →
    let result := scan_reads keys max_matches (ReadOk <$> chunks) leftover matches in
    found_msg kw ∈ result ∨ max_matches ≤ Z.of_nat (length result).
Proof.
  intros Henc Hkw Hkb Hlen Hne.
  induction Hne as [|chunk chunks Hchunk Hne IH]; intros leftover matches Hout Hin.
  { simpl in Hin. rewrite app_nil_r in Hin. congruence. }
  cbv zeta. rewrite fmap_cons, scan_reads_cons by done.
  pose proof (scan_window_spec keys (bytes_lower (leftover ++ chunk))
                max_matches matches Henc) as Hw.
  destruct (scan_window _ _ _ _) as [m'|m']; [|right; apply Hw].
  destruct Hw as [_ Hall].
  destruct (contains kb (bytes_lower (leftover ++ chunk))) eqn:Hc.
  - left.
    destruct (scan_reads_extends keys max_matches (ReadOk <$> chunks)
                (last_bytes 64 (leftover ++ chunk)) m' Henc) as [ext ->].
    apply elem_of_app. left. by eapply Hall.
  - apply IH.
    + rewrite bytes_lower_last_bytes. unfold last_bytes.
      destruct (contains kb (drop _ _)) eqn:Hd; [|done].
      apply contains_drop in Hd. congruence.
    + rewrite bytes_lower_app, bytes_lower_last_bytes.
      apply overlap_keeps_occurrence; [lia | done |].
      rewrite <- bytes_lower_app. simpl concat in Hin.
      by rewrite app_assoc in Hin.
Qed.

(** *** The messages are distinct messages of keys *)

Lemma scan_window_inv (msgs keys : list pystr) (low : pybytes)
    (max_matches : Z) (matches : list pystr) :
  found_msg <$> keys ⊆ msgs → NoDup matches → matches ⊆ msgs →
  let matches' := matches_of (scan_window keys low max_matches matches) in
  NoDup matches' ∧ matches' ⊆ msgs.
Proof.
  revert matches. induction keys as [|k keys IH]; intros matches Hkeys Hnd Hsub; [done|].
  assert (Hk : found_msg k ∈ msgs) by (apply Hkeys; left).
  assert (Hkeys' : found_msg <$> keys ⊆ msgs).
  { intros x Hx. apply Hkeys. by right. }
  simpl. destruct (utf8_encode k) as [kb|]; [|done].
  destruct (contains kb low); [|by apply IH].
  case_decide as Hin; [by apply IH|].
  assert (Hnd' : NoDup (matches ++ [found_msg k])).
  { apply NoDup_app. split; [done|]. split; [|apply NoDup_singleton].
    intros x Hx ->%list_elem_of_singleton. done. }
  assert (Hsub' : matches ++ [found_msg k] ⊆ msgs).
  { intros x [Hx | ->%list_elem_of_singleton]%elem_of_app; [by apply Hsub | done]. }
  case_decide; [done | by apply IH].
Qed.

Lemma scan_reads_inv (msgs keys : list pystr) (max_matches : Z)
    (reads : list read_outcome) (leftover : pybytes) (matches : list pystr) :
  found_msg <$> keys ⊆ msgs → NoDup matches → matches ⊆ msgs →
  let result := scan_reads keys max_matches reads leftover matches in
  NoDup result ∧ result ⊆ msgs.
Proof.
  intros Hkeys. revert leftover matches.
  induction reads as [|[chunk|] reads IH]; intros leftover matches Hnd Hsub; [done| |done].
  destruct (decide (chunk = [])) as [->|Hne]; [done|].
  cbv zeta. rewrite scan_reads_cons by done.
  pose proof (scan_window_inv msgs keys (bytes_lower (leftover ++ chunk))
                max_matches matches Hkeys Hnd Hsub) as [Hnd' Hsub'].
  destruct (scan_window _ _ _ _) as [m'|m']; [by apply IH | done].
Qed.

(** No more messages than keys. *)
Lemma deep_scan_bytes_length (file : file_state)
    (extra_keywords : option (list pystr)) (max_matches : Z) :
  (length (deep_scan_bytes file extra_keywords max_matches)
   ≤ length (dedup_lower ∅ (scan_keywords extra_keywords)))%nat.
Proof.
  unfold deep_scan_bytes.
  set (keys := dedup_lower ∅ (scan_keywords extra_keywords)).
  destruct file as [|data fail_at]; [simpl; lia|].
  destruct (scan_reads_inv (found_msg <$> keys) keys max_matches
              (read_calls (length data) chunk_size data fail_at) [] [])
    as [Hnd Hsub]; [done | apply NoDup_nil_2 | by intros x ?%elem_of_nil |].
  rewrite <- (length_fmap found_msg keys).
  apply submseteq_length. by apply NoDup_submseteq.
Qed.

(** *** Keywords of ASCII characters *)

Lemma lower_codepoint_ascii (c : N) :
  (c < 128)%N →
  lower_codepoint c = [if ((65 <=? c) && (c <=? 90))%N then (c + 32)%N else c].
Proof.
  intros Hc. unfold lower_codepoint.
  destruct ((65 <=? c) && (c <=? 90))%N; [reflexivity|].
  destruct (N.eqb_spec c 304) as [->|_]; [lia|].
  destruct (N.eqb_spec c 8490) as [->|_]; [lia|]. reflexivity.
Qed.

(** On ASCII text [str_lower] is the lower-casing of the capitals [A] to
    [Z], which is what [str.lower()] does there. *)
Lemma str_lower_ascii (s : pystr) : ascii s → str_lower s = ascii_lower s.
Proof.
  unfold ascii, str_lower, ascii_lower.
  induction s as [|c s IH]; intros Hs; [reflexivity|].
  apply Forall_cons in Hs as [Hc Hs].
  cbn [mbind list_bind fmap list_fmap].
  rewrite (lower_codepoint_ascii c Hc). cbn [app]. f_equal. exact (IH Hs).
Qed.

Lemma ascii_lower_ascii (s : pystr) : ascii s → ascii (ascii_lower s).
Proof.
  unfold ascii, ascii_lower. rewrite Forall_fmap. intros Hs.
  eapply Forall_impl; [exact Hs|]. intros c Hc. cbv beta in Hc.
  change ((if ((65 <=? c) && (c <=? 90))%N then (c + 32)%N else c) < 128)%N.
  destruct (N.leb_spec 65 c), (N.leb_spec c 90); cbn [andb]; lia.
Qed.

(** ASCII text has a UTF-8 form, one byte a character. *)
Lemma utf8_encode_ascii (s : pystr) :
  ascii s → utf8_encode s = Some (byte_of_N <$> s).
Proof.
  unfold ascii. induction s as [|c s IH]; intros Hs; [reflexivity|].
  apply Forall_cons in Hs as [Hc Hs].
  cbn [utf8_encode]. rewrite (IH Hs). unfold utf8_encode_codepoint.
  rewrite (proj2 (N.ltb_lt c 128) Hc). reflexivity.
Qed.

Lemma ascii_check (s : pystr) :
  forallb (λ c, (c <? 128)%N) s = true → ascii s.
Proof.
  unfold ascii. rewrite forallb_forall, Forall_forall.
  intros H c Hc%list_elem_of_In. apply N.ltb_lt. exact (H c Hc).
Qed.

Lemma builtin_keywords_ascii : Forall ascii AI_KEYWORDS.
Proof.
  unfold AI_KEYWORDS. rewrite Forall_fmap.
  repeat (apply Forall_cons; split;
          [apply ascii_check; vm_compute; reflexivity|]).
  apply Forall_nil_2.
Qed.

(** The keys are the lower-case forms of the keywords, each once. *)
Lemma dedup_lower_spec (keywords : list pystr) (seen : gset pystr) :
  NoDup (dedup_lower seen keywords)
  ∧ ∀ k, k ∈ dedup_lower seen keywords ↔
         (k ∉ seen) ∧ ∃ k0, k0 ∈ keywords ∧ k = str_lower k0.
Proof.
  revert seen. induction keywords as [|k0 keywords IH]; intros seen; simpl.
  { split; [apply NoDup_nil_2|]. intros k. split; [by intros ?%elem_of_nil|].
    intros (_ & k0 & ?%elem_of_nil & _). done. }
  case_decide as Hseen.
  - destruct (IH seen) as [Hnd Hin]. split; [done|].
    intros k. rewrite Hin. split.
    + intros (? & k1 & ? & ?). split; [done|]. exists k1. split; [by right|done].
    + intros (Hk & k1 & [->|?]%elem_of_cons & ->); [done|].
      split; [done|]. by exists k1.
  - destruct (IH ({[str_lower k0]} ∪ seen)) as [Hnd Hin]. split.
    + apply NoDup_cons. split; [|done]. rewrite Hin. set_solver.
    + intros k. rewrite elem_of_cons, Hin. split.
      * intros [->|(Hk & k1 & ? & ->)].
        -- split; [done|]. exists k0. split; [left|done].
        -- split; [set_solver|]. exists k1. split; [by right|done].
      * intros (Hk & k1 & [->|?]%elem_of_cons & ->); [by left|].
        destruct (decide (str_lower k1 = str_lower k0)) as [Heq|Hne]; [by left|].
        right. split; [set_solver|]. by exists k1.
Qed.

Lemma scan_keywords_ascii (extra_keywords : option (list pystr)) :
  ascii_keywords extra_keywords → Forall ascii (scan_keywords extra_keywords).
Proof.
  unfold ascii_keywords, scan_keywords. intros Hextra.
  apply Forall_app. split; [exact builtin_keywords_ascii|].
  destruct extra_keywords as [l|]; [|apply Forall_nil_2].
  cbn [from_option id] in Hextra. rewrite Forall_forall in Hextra.
  apply Forall_forall. intros k [_ Hk]%list_elem_of_filter.
  exact (Hextra k Hk).
Qed.

(** With extra keywords of ASCII characters the keys are ASCII text. *)
Lemma scan_keys_ascii (extra_keywords : option (list pystr)) :
  ascii_keywords extra_keywords →
  Forall ascii (dedup_lower ∅ (scan_keywords extra_keywords)).
Proof.
  intros Hextra. pose proof (scan_keywords_ascii extra_keywords Hextra) as Hkw.
  rewrite Forall_forall in Hkw. apply Forall_forall. intros k Hk.
  destruct (dedup_lower_spec (scan_keywords extra_keywords) ∅) as [_ Hin].
  apply Hin in Hk as (_ & k0 & Hk0 & ->).
  rewrite (str_lower_ascii k0 (Hkw k0 Hk0)).
  apply ascii_lower_ascii. exact (Hkw k0 Hk0).
Qed.

(** So each key has a UTF-8 form: the scan meets no [UnicodeEncodeError]. *)
Lemma ascii_keys_encodable (extra_keywords : option (list pystr)) :
  ascii_keywords extra_keywords →
  encodable (dedup_lower ∅ (scan_keywords extra_keywords)).
Proof.
  intros Hextra. unfold encodable.
  eapply Forall_impl; [exact (scan_keys_ascii extra_keywords Hextra)|].
  intros k Hk. rewrite (utf8_encode_ascii k Hk). by eexists.
Qed.

(** *** The fixed overlap and the keywords *)

Lemma chunk_size_pos : (0 < chunk_size)%nat.
Proof. unfold chunk_size. lia. Qed.

(** The built-in keywords are ASCII, of 2 to 16 bytes: the overlap of 64
    bytes covers them. *)
Lemma builtin_keywords_short :
  Forall (λ k, ∃ kb, utf8_encode k = Some kb ∧ (0 < length kb ≤ 16)%nat)
         AI_KEYWORDS.
Proof.
  unfold AI_KEYWORDS. rewrite Forall_fmap.
  repeat (apply Forall_cons; split;
          [eexists; split; [vm_compute; reflexivity | simpl; lia]|]).
  apply Forall_nil. done.
Qed.

Lemma builtin_keys : dedup_lower ∅ (scan_keywords None) = AI_KEYWORDS.
Proof. vm_compute. reflexivity. Qed.

Lemma builtin_keys_encodable : encodable AI_KEYWORDS.
Proof.
  eapply Forall_impl; [apply builtin_keywords_short|].
  intros k (kb & -> & _). by eexists.
Qed.

(** An occurrence of a key of at most 65 bytes is reported, or the cap of
    [max_matches] messages is reached. *)
Lemma scan_finds_or_cap (data : pybytes)
    (extra_keywords : option (list pystr)) (max_matches : Z)
    (kw : pystr) (kb : pybytes) :
  let keys := dedup_lower ∅ (scan_keywords extra_keywords) in
  encodable keys → kw ∈ keys → utf8_encode kw = Some kb →
  (0 < length kb ≤ 65)%nat →
  contains kb (bytes_lower data) = true →
  let result := deep_scan_bytes (Readable data None) extra_keywords max_matches in
  found_msg kw ∈ result ∨ max_matches ≤ Z.of_nat (length result).
Proof.
  intros keys Henc Hkw Hkb Hlen Hin result. unfold result, deep_scan_bytes.
  fold keys.
  destruct (read_calls_chunks chunk_size (length data) data chunk_size_pos)
    as (chunks & -> & Hc & Hne); [done|].
  apply (scan_reads_finds keys max_matches kw kb chunks); try done; [lia| |].
  - destruct kb; [simpl in Hlen; lia | done].
  - by rewrite Hc.
Qed.



(** With the defaults of [detect_ai] (no extra keyword, 20 messages at
    most) the cap is never reached: every built-in keyword that occurs in
    the file is reported. *)
Lemma deep_scan_bytes_default_finds (data : pybytes) (kw : pystr) (kb : pybytes) :
  kw ∈ AI_KEYWORDS → utf8_encode kw = Some kb →
  contains kb (bytes_lower data) = true →
  found_msg kw ∈ deep_scan_bytes (Readable data None) None 20.
Proof.
  intros Hkw Hkb Hin.
  assert (Hlen : (0 < length kb ≤ 65)%nat).
  { pose proof builtin_keywords_short as Hshort.
    rewrite Forall_forall in Hshort.
    destruct (Hshort kw Hkw) as (kb' & Hkb' & Hl).
    rewrite Hkb in Hkb'. injection Hkb' as <-. lia. }
  pose proof (scan_finds_or_cap data None 20 kw kb) as Hmain.
  cbv zeta in Hmain. rewrite builtin_keys in Hmain.
  pose proof (deep_scan_bytes_length (Readable data None) None 20) as Hle.
  rewrite builtin_keys in Hle. unfold AI_KEYWORDS in Hle.
  rewrite length_fmap in Hle.
  revert Hmain Hle. generalize (deep_scan_bytes (Readable data None) None 20).
  intros result Hmain Hle.
  destruct (Hmain builtin_keys_encodable Hkw Hkb Hlen Hin) as [H|H]; [exact H|].
  simpl in Hle. lia.
Qed.

(** *** A key longer than the overlap *)





(** *** A read that fails *)

Lemma read_calls_fail_now (fuel n : nat) (data : pybytes) :
  read_calls fuel n data (Some O) = [ReadError].
Proof. by destruct fuel. Qed.

Lemma read_calls_fail_later (fuel n k : nat) (data : pybytes) :
  data ≠ [] →
  read_calls (S fuel) n data (Some (S k))
  = ReadOk (take n data) :: read_calls fuel n (drop n data) (Some k).
Proof. by destruct data. Qed.

Lemma read_calls_fail_eof (fuel n k : nat) :
  read_calls fuel n [] (Some (S k)) = [].
Proof. by destruct fuel. Qed.

(** A failure of the read number [k] leaves the scan of the [k] reads
    before it. *)
Lemma scan_reads_failed_read (keys : list pystr) (max_matches : Z) (n : nat) :
  (0 < n)%nat →
  ∀ k data fuel fuel' leftover matches,
    (length data ≤ fuel)%nat → (length (take (k * n) data) ≤ fuel')%nat →
    scan_reads keys max_matches (read_calls fuel n data (Some k)) leftover matches
    = scan_reads keys max_matches
        (read_calls fuel' n (take (k * n) data) None) leftover matches.
Proof.
  intros Hn. induction k as [|k IH]; intros data fuel fuel' leftover matches Hf Hf'.
  { rewrite read_calls_fail_now. simpl take. by rewrite read_calls_nil. }
  destruct data as [|b data].
  { rewrite read_calls_fail_eof, take_nil. by rewrite read_calls_nil. }
  destruct fuel as [|fuel]; [simpl in Hf; lia|].
  rewrite read_calls_fail_later by done.
  assert (Hmul : (S k * n = n + k * n)%nat) by lia.
  rewrite Hmul in *.
  assert (Hne : take (n + k * n) (b :: data) ≠ []).
  { destruct n; [lia | done]. }
  destruct fuel' as [|fuel'].
  { destruct (take (n + k * n) (b :: data)); [done | simpl in Hf'; lia]. }
  rewrite read_calls_some by done.
  rewrite take_take, Nat.min_l by lia.
  rewrite <- take_drop_commute.
  assert (Hchunk : take n (b :: data) ≠ []).
  { destruct n; [lia | done]. }
  rewrite !scan_reads_cons by done.
  destruct (scan_window _ _ _ _); [|done].
  apply IH.
  - rewrite length_drop. simpl in *. lia.
  - rewrite take_drop_commute, length_drop. lia.
Qed.

(** C9, as the code has it: an I/O failure in the scan is caught. When
    [open] fails the result is the empty list; when the read number [k]
    fails the result is the list of the matches collected in the [k] reads
    before it, which is the scan of the first [k * chunk_size] bytes of the
    file (the empty list for [k = 0]). *)
Theorem deep_scan_bytes_io_failure
    (extra_keywords : option (list pystr)) (max_matches : Z) :
  deep_scan_bytes OpenFails extra_keywords max_matches = []
  ∧ (∀ data, deep_scan_bytes (Readable data (Some O)) extra_keywords max_matches = [])
  ∧ ∀ data k,
      deep_scan_bytes (Readable data (Some k)) extra_keywords max_matches
      = deep_scan_bytes (Readable (take (k * chunk_size) data) None)
          extra_keywords max_matches.
Proof.
  split; [reflexivity|]. split.
  - intros data. unfold deep_scan_bytes. by rewrite read_calls_fail_now.
  - intros data k. unfold deep_scan_bytes.
    apply scan_reads_failed_read; [apply chunk_size_pos | done..].
Qed.

(** C9, the claim as it is written, fails: the file holds "sdxl", the first
    read returns it and the second read raises. The scan returns the match
    of the first read, not the empty list. *)
Lemma read_failure_keeps_earlier_matches :
  deep_scan_bytes (Readable (pyb "sdxl") (Some 1%nat)) None 20
  = [py "bytes: found 'sdxl'"]
  ∧ deep_scan_bytes (Readable (pyb "sdxl") (Some 1%nat)) None 20 ≠ [].
Proof.
  assert (H : deep_scan_bytes (Readable (pyb "sdxl") (Some 1%nat)) None 20
              = [py "bytes: found 'sdxl'"]).
  { unfold deep_scan_bytes. rewrite builtin_keys.
    change (length (pyb "sdxl")) with 4%nat.
    rewrite read_calls_fail_later by done.
    rewrite read_calls_fail_now.
    rewrite (take_ge (pyb "sdxl")) by (unfold chunk_size; simpl length; lia).
    vm_compute. reflexivity. }
  split; [exact H|]. rewrite H. discriminate.
Qed.

(** ** The dry run and the file system *)

(** [mkdir] keeps what exists and adds directories only. *)
Lemma mkdir_from_adds_dirs (anchor : bool) (below above : list pystr)
    (fs : filesystem) (p : Path) :
  let fs' := (mkdir_from anchor above below fs).1 in
  fs' !! p = fs !! p ∨ (fs !! p = None ∧ fs' !! p = Some Dir).
Proof.
  revert above fs. induction below as [|c below IH]; intros above fs; simpl; [by left|].
  destruct (fs !! (anchor, above ++ [c])) as [[content|]|] eqn:Hq; simpl; [by left|apply IH|].
  destruct (IH (above ++ [c]) (<[(anchor, above ++ [c]) := Dir]> fs)) as [H|[H1 H2]].
  - rewrite H. destruct (decide ((anchor, above ++ [c]) = p)) as [<-|Hne].
    + right. by rewrite lookup_insert_eq.
    + left. by rewrite lookup_insert_ne.
  - right. split; [|done].
    destruct (decide ((anchor, above ++ [c]) = p)) as [<-|Hne].
    + by rewrite lookup_insert_eq in H1.
    + by rewrite lookup_insert_ne in H1.
Qed.

Lemma mkdir_parents_adds_dirs (q : Path) (fs : filesystem) (p : Path) :
  let fs' := (mkdir_parents q fs).1 in
  fs' !! p = fs !! p ∨ (fs !! p = None ∧ fs' !! p = Some Dir).
Proof. apply mkdir_from_adds_dirs. Qed.

Lemma make_output_path_adds_dirs (src : Path) (opts : ModifyOptions)
    (fs : filesystem) (p : Path) :
  let fs' := (make_output_path src opts fs).1 in
  fs' !! p = fs !! p ∨ (fs !! p = None ∧ fs' !! p = Some Dir).
Proof.
  unfold make_output_path.
  destruct (mo_out_dir opts) as [out_dir|]; [|by left].
  destruct (mo_in_place opts); [by left|].
  pose proof (mkdir_parents_adds_dirs out_dir fs p) as H1.
  destruct (mkdir_parents out_dir fs) as [fs1 ok1]. simpl in H1.
  destruct ok1; [|done].
  set (dest := joinpath out_dir _).
  pose proof (mkdir_parents_adds_dirs (path_parent dest) fs1 p) as H2.
  destruct (mkdir_parents (path_parent dest) fs1) as [fs2 ok2]. simpl in H2.
  assert (fs2 !! p = fs !! p ∨ fs !! p = None ∧ fs2 !! p = Some Dir).
  { destruct H1 as [H1|[H1 H1']], H2 as [H2|[H2 H2']]; try (left; congruence);
      right; split; congruence. }
  by destruct ok2.
Qed.

Section DryRun.

Variable image_format : pybytes → option pystr.
Variable piexif_load : pybytes → option ExifDict.
Variable piexif_dump : ExifDict → option pybytes.
Variable piexif_insert : pybytes → pybytes → option pybytes.

(** What a dry run leaves alone: every regular file keeps its content,
    nothing is removed, and what is new is a directory. *)
Lemma dry_run_keeps_files (src : Path) (opts : ModifyOptions)
    (fs : filesystem) (p : Path) :
  mo_dry_run opts = true →
  let fs' :=
    (apply_strip_and_replace image_format piexif_load piexif_dump
       piexif_insert src opts fs).1 in
  fs' !! p = fs !! p ∨ (fs !! p = None ∧ fs' !! p = Some Dir).
Proof.
  intros Hdry. unfold apply_strip_and_replace. rewrite Hdry.
  destruct (negb _); [by left|].
  pose proof (make_output_path_adds_dirs src opts fs p) as H.
  destruct (make_output_path src opts fs) as [fs1 [dest|]]; exact H.
Qed.

(** C2 at a failing input: a dry run with [--out-dir out] on the JPEG file
    [photo.jpg], in a directory where [out] does not exist. The call
    returns success with the destination [out/photo.jpg], and the
    directory [out] exists afterwards: [make_output_path] has created it,
    where [write_bytes] makes its [mkdir] only when [dry_run] is off. *)
Theorem dry_run_creates_output_directory (content : pybytes) :
  is_format_supported_for_exif (image_format content) = true →
  let src : Path := (false, [py "photo.jpg"]) in
  let out : Path := (false, [py "out"]) in
  let opts :=
    mkOptions true None false true false false false None (Some out) true None in
  let fs : filesystem := {[ src := File content ]} in
  let result :=
    apply_strip_and_replace image_format piexif_load piexif_dump
      piexif_insert src opts fs in
  result = (<[ out := Dir ]> fs,
            Returned true None (Some (false, [py "out"; py "photo.jpg"])))
  ∧ fs !! out = None
  ∧ result.1 !! out = Some Dir
  ∧ result.1 ≠ fs.
Proof.
  intros Hfmt src out opts fs result.
  assert (Hrun : result
                 = (<[ out := Dir ]> fs,
                    Returned true None (Some (false, [py "out"; py "photo.jpg"])))).
  { unfold result, apply_strip_and_replace, is_supported_for_write,
      get_image_format, read_bytes.
    unfold fs at 1. rewrite lookup_singleton_eq. simpl mbind.
    rewrite Hfmt. cbn [negb mo_dry_run opts].
    assert (Hpath : make_output_path src opts fs
                    = (<[ out := Dir ]> fs, Some (false, [py "out"; py "photo.jpg"]))).
    { unfold make_output_path, mkdir_parents. cbn [mo_out_dir mo_in_place opts].
      cbn [mkdir_from out fst snd app].
      assert (Hout : fs !! out = None) by (by apply lookup_singleton_ne).
      unfold out in Hout at 1. rewrite Hout.
      cbn [mo_base_input_dir opts name_path joinpath path_parent src snd fst
           last app removelast mkdir_from].
      change (removelast (out.2 ++ [py "photo.jpg"])) with [py "out"].
      change (out.2 ++ [py "photo.jpg"]) with [py "out"; py "photo.jpg"].
      change out.1 with false.
      cbn [mkdir_from app]. by rewrite lookup_insert_eq. }
    by rewrite Hpath. }
  assert (Hnew : result.1 !! out = Some Dir).
  { rewrite Hrun. apply lookup_insert_eq. }
  assert (Hold : fs !! out = None) by (by apply lookup_singleton_ne).
  split; [exact Hrun|]. split; [exact Hold|]. split; [exact Hnew|].
  intros Heq. rewrite Heq, Hold in Hnew. discriminate.
Qed.

End DryRun.

(** A run of the theorem above, with libraries that know JPEG files. *)
Lemma dry_run_creates_output_directory_witness :
  let image_format : pybytes → option pystr := λ _, Some (py "JPEG") in
  let content := pyb "jpeg" in
  is_format_supported_for_exif (image_format content) = true
  ∧ (apply_strip_and_replace image_format (λ _, None) (λ _, None) (λ _ _, None)
       (false, [py "photo.jpg"])
       (mkOptions true None false true false false false None
                  (Some (false, [py "out"])) true None)
       {[ (false, [py "photo.jpg"]) := File content ]}).1
    !! (false, [py "out"]) = Some Dir.
Proof.
  intros image_format content.
  assert (Hfmt : is_format_supported_for_exif (image_format content) = true)
    by (vm_compute; reflexivity).
  split; [exact Hfmt|].
  exact (proj1 (proj2 (proj2 (dry_run_creates_output_directory image_format
                                (λ _, None) (λ _, None) (λ _ _, None)
                                content Hfmt)))).
Defined.

(** ** Camera profiles *)

Lemma str_lower_app (a b : pystr) : str_lower (a ++ b) = str_lower a ++ str_lower b.
Proof. unfold str_lower. apply bind_app. Qed.

Lemma lower_codepoint_nonempty (c : N) : lower_codepoint c ≠ [].
Proof. unfold lower_codepoint. repeat case_match; done. Qed.

Lemma str_lower_nil_inv (s : pystr) : str_lower s = [] → s = [].
Proof.
  destruct s as [|c s]; [done|]. unfold str_lower. simpl.
  pose proof (lower_codepoint_nonempty c). destruct (lower_codepoint c); done.
Qed.

(** The separator is its own lower case, and no other code point gives it. *)
Lemma lower_codepoint_bar (c : N) : 124%N ∈ lower_codepoint c ↔ c = 124%N.
Proof.
  unfold lower_codepoint. split.
  - intros Hin. destruct ((65 <=? c) && (c <=? 90))%N eqn:E1.
    { apply list_elem_of_singleton in Hin.
      apply andb_true_iff in E1 as [E1a E1b]. apply N.leb_le in E1a, E1b. lia. }
    destruct (c =? 304)%N eqn:E2.
    { apply elem_of_cons in Hin as [Hin|Hin]; [discriminate|].
      apply list_elem_of_singleton in Hin. discriminate. }
    destruct (c =? 8490)%N eqn:E3.
    { apply list_elem_of_singleton in Hin. discriminate. }
    apply list_elem_of_singleton in Hin. done.
  - intros ->. vm_compute. left.
Qed.

Lemma str_lower_bar (s : pystr) : 124%N ∈ str_lower s ↔ 124%N ∈ s.
Proof.
  unfold str_lower. rewrite list_elem_of_bind. split.
  - intros (c & Hc & Hin). by apply lower_codepoint_bar in Hc as ->.
  - intros Hin. exists 124%N. split; [by apply lower_codepoint_bar | done].
Qed.

(** X1: [get_default_camera_profile] returns, for every name and for no
    name, a profile key among "canon", "iphone" and "custom", and a make and
    a model that are not empty. *)
Theorem get_default_camera_profile_nonempty (name : option pystr) :
  let '(key, make, model) := get_default_camera_profile name in
  key ∈ [py "canon"; py "iphone"; py "custom"] ∧ make ≠ [] ∧ model ≠ [].
Proof.
  unfold get_default_camera_profile.
  destruct name as [[|c name]|];
    [split; [left|done] | | split; [left|done]].
  repeat case_decide.
  - split; [left|done].
  - split; [right; left|done].
  - destruct (split_once 124 (c :: name)) as [a b]. split; [right; right; left|].
    split.
    + unfold str_or. destruct (strip a); done.
    + unfold str_or. destruct (strip b); done.
  - split; [right; right; left|]. done.
Qed.

Lemma lstrip_id (s : pystr) :
  (∀ c, head s = Some c → is_space c = false) → lstrip s = s.
Proof.
  destruct s as [|c s]; [done|]. intros H. simpl. by rewrite (H c).
Qed.

Lemma strip_id (s : pystr) :
  (∀ c, head s = Some c → is_space c = false) →
  (∀ c, last s = Some c → is_space c = false) →
  strip s = s.
Proof.
  intros Hh Hl. unfold strip, rstrip. rewrite (lstrip_id s Hh).
  rewrite lstrip_id; [by rewrite reverse_involutive|].
  intros c Hc. apply Hl. by rewrite <- head_reverse.
Qed.

Lemma split_once_app (sep : N) (a b : pystr) :
  sep ∉ a → split_once sep (a ++ sep :: b) = (a, b).
Proof.
  induction a as [|c a IH]; intros Hnot; simpl.
  - by rewrite N.eqb_refl.
  - destruct (N.eqb_spec c sep) as [->|Hne].
    + exfalso. apply Hnot. left.
    + rewrite IH; [done|]. intros Hin. apply Hnot. by right.
Qed.

(** X2: a literal ["Make|Model"] gives back its two sides: when the make
    holds no ["|"], and make and model are not empty and neither starts nor
    ends with white space, [get_default_camera_profile] returns
    [("custom", make, model)]. *)
Theorem get_default_camera_profile_literal (make model : pystr) :
  make ≠ [] → model ≠ [] → 124%N ∉ make →
  (∀ c, head make = Some c ∨ last make = Some c
        ∨ head model = Some c ∨ last model = Some c → is_space c = false) →
  get_default_camera_profile (Some (make ++ py "|" ++ model))
  = (py "custom", make, model).
Proof.
  intros Hmake Hmodel Hbar Hsp.
  assert (Hin : 124%N ∈ make ++ py "|" ++ model).
  { rewrite !elem_of_app. right. left. vm_compute. left. }
  assert (Hlow : ∀ lit, 124%N ∉ lit → str_lower (make ++ py "|" ++ model) ≠ lit).
  { intros lit Hlit Heq. apply Hlit. rewrite <- Heq. by apply str_lower_bar. }
  unfold get_default_camera_profile.
  destruct (make ++ py "|" ++ model) as [|c rest] eqn:Hname.
  { by apply elem_of_nil in Hin. }
  rewrite decide_False by (apply Hlow; vm_compute; set_solver).
  rewrite decide_False by (apply Hlow; vm_compute; set_solver).
  rewrite decide_True by done.
  rewrite <- Hname.
  change (py "|" ++ model) with (124%N :: model).
  rewrite split_once_app by done.
  rewrite !strip_id by (intros x Hx; apply Hsp; auto).
  unfold str_or. destruct make, model; done.
Qed.

(** A run of X2. *)
Lemma get_default_camera_profile_literal_witness :
  let make := py "Sony" in
  let model := py "A7 IV" in
  make ≠ [] ∧ model ≠ [] ∧ (124%N ∉ make)
  ∧ (∀ c, head make = Some c ∨ last make = Some c
          ∨ head model = Some c ∨ last model = Some c → is_space c = false)
  ∧ get_default_camera_profile (Some (make ++ py "|" ++ model))
    = (py "custom", make, model).
Proof.
  intros make model.
  assert (H1 : make ≠ []) by discriminate.
  assert (H2 : model ≠ []) by discriminate.
  assert (H3 : 124%N ∉ make).
  { intros H. vm_compute in H. repeat (apply elem_of_cons in H as [H|H]; [discriminate|]).
    by apply elem_of_nil in H. }
  assert (H4 : ∀ c, head make = Some c ∨ last make = Some c
                    ∨ head model = Some c ∨ last model = Some c → is_space c = false).
  { intros c [H|[H|[H|H]]]; vm_compute in H; injection H as <-; reflexivity. }
  repeat (split; [assumption|]).
  exact (get_default_camera_profile_literal make model H1 H2 H3 H4).
Defined.

(** ** Composing the transformations *)

(** Two dicts with the same groups and the same thumbnail are equal. *)
Lemma exif_dict_eq (e1 e2 : ExifDict) :
  (∀ k, exif_lookup k e1 = exif_lookup k e2) →
  ex_thumbnail e1 = ex_thumbnail e2 → e1 = e2.
Proof.
  destruct e1, e2. intros Hk Ht. simpl in Ht.
  pose proof (Hk K0th). pose proof (Hk KExif). pose proof (Hk KGPS).
  pose proof (Hk K1st). simpl in *. congruence.
Qed.

Lemma exif_lookup_set_camera (exif : ExifDict) (make model : pystr) (k : ifd_key) :
  exif_lookup k (set_camera_make_model exif make model)
  = Some (exif_get k (set_camera_make_model exif make model)).
Proof. destruct exif as [[?|] [?|] [?|] [?|] ?], k; reflexivity. Qed.

Lemma exif_lookup_extended (exif : ExifDict) (profile make model : pystr)
    (k : ifd_key) :
  exif_lookup k (apply_extended_camera_profile exif profile make model)
  = Some (exif_get k (apply_extended_camera_profile exif profile make model)).
Proof.
  unfold apply_extended_camera_profile. cbv zeta.
  repeat case_decide; destruct exif as [[?|] [?|] [?|] [?|] ?], k; reflexivity.
Qed.

Lemma thumbnail_extended (exif : ExifDict) (profile make model : pystr) :
  ex_thumbnail (apply_extended_camera_profile exif profile make model)
  = setdefault None (ex_thumbnail exif).
Proof.
  unfold apply_extended_camera_profile. cbv zeta.
  repeat case_decide; rewrite !thumbnail_set, set_camera_make_model_thumbnail;
    by destruct exif as [? ? ? ? [?|]].
Qed.

(** X3: [set_camera_make_model] sets Make and Model of the 0th group and
    touches nothing else: every other tag of every group reads as before,
    and the thumbnail is the one of the document ([None] when the key was
    absent). *)
Theorem set_camera_make_model_only_make_model
    (exif : ExifDict) (make model : pystr) :
  let out := set_camera_make_model exif make model in
  (∀ k t, exif_get k out !! t
          = if decide (k = K0th ∧ t = ImageIFD.Make) then Some (VStr make)
            else if decide (k = K0th ∧ t = ImageIFD.Model) then Some (VStr model)
            else exif_get k exif !! t)
  ∧ ex_thumbnail out = setdefault None (ex_thumbnail exif).
Proof.
  intros out. unfold out. split.
  - intros k t. rewrite set_camera_make_model_lookup.
    unfold ImageIFD.Make, ImageIFD.Model. repeat case_decide; naive_solver.
  - apply set_camera_make_model_thumbnail.
Qed.

(** X4: the last camera identity wins: setting make and model twice is
    setting the second pair once. *)
Theorem set_camera_make_model_last_wins
    (exif : ExifDict) (make1 model1 make2 model2 : pystr) :
  set_camera_make_model (set_camera_make_model exif make1 model1) make2 model2
  = set_camera_make_model exif make2 model2.
Proof.
  apply exif_dict_eq.
  - intros k. rewrite !exif_lookup_set_camera. f_equal.
    apply map_eq. intros t. rewrite !set_camera_make_model_lookup.
    repeat case_decide; naive_solver.
  - rewrite !set_camera_make_model_thumbnail. by destruct (ex_thumbnail exif).
Qed.

(** X5: what [strip_identifying] keeps. In the 0th group the tags of the
    removal list are absent (Orientation is on the list only with
    [remove_orientation]), DateTime is absent when [anonymize_dates] is set
    or [preserve_dates] is not, and every other tag reads as before; the
    same holds in the Exif group with its removal list and the two dates
    DateTimeOriginal and DateTimeDigitized. [anonymize_dates] removes the
    dates even with [preserve_dates]. *)
Theorem strip_identifying_keeps_other_tags
    (exif : ExifDict) (preserve_dates anonymize_dates remove_orientation : bool)
    (t : Z) :
  let out :=
    strip_identifying exif preserve_dates anonymize_dates remove_orientation in
  let no_dates := anonymize_dates || negb preserve_dates in
  exif_get K0th out !! t
  = (if decide (t ∈ tags_0th_remove remove_orientation) then None
     else if decide (t = ImageIFD.DateTime) then
       if no_dates then None else exif_get K0th exif !! t
     else exif_get K0th exif !! t)
  ∧ exif_get KExif out !! t
    = (if decide (t ∈ tags_exif_remove) then None
       else if decide (t = ExifIFD.DateTimeOriginal ∨ t = ExifIFD.DateTimeDigitized)
            then if no_dates then None else exif_get KExif exif !! t
       else exif_get KExif exif !! t).
Proof.
  intros out no_dates. unfold out, no_dates.
  rewrite strip_identifying_closed_form.
  change (exif_get K0th (mkExif (Some ?a) _ _ _ _)) with a.
  change (exif_get KExif (mkExif _ (Some ?a) _ _ _)) with a.
  rewrite !without_lookup.
  unfold removed_0th, removed_Exif, dates_removed.
  destruct (anonymize_dates || negb preserve_dates); split;
    repeat case_decide; try done; set_solver.
Qed.

(** X6: stripping after a replacement takes the replacement back. After
    [set_camera_make_model] the result of [strip_identifying] is the one on
    the document itself; after [apply_extended_camera_profile] the 0th group
    is the one of stripping the document itself, the lens make and model
    are absent, and the four technical fields stay. *)
Theorem strip_identifying_undoes_replacement
    (exif : ExifDict) (profile make model : pystr) (pd ad ro : bool) :
  strip_identifying (set_camera_make_model exif make model) pd ad ro
  = strip_identifying exif pd ad ro
  ∧ let out :=
      strip_identifying (apply_extended_camera_profile exif profile make model)
        pd ad ro in
    exif_get K0th out = exif_get K0th (strip_identifying exif pd ad ro)
    ∧ exif_get KExif out !! ExifIFD.LensMake = None
    ∧ exif_get KExif out !! ExifIFD.LensModel = None
    ∧ exif_get KExif out !! ExifIFD.FNumber = Some (VRational 28 10)
    ∧ exif_get KExif out !! ExifIFD.ExposureTime = Some (VRational 1 125)
    ∧ exif_get KExif out !! ExifIFD.FocalLength = Some (VRational 50 1)
    ∧ exif_get KExif out !! ExifIFD.ISOSpeedRatings = Some (VInt 100).
Proof.
  split.
  - rewrite !strip_identifying_closed_form. f_equal; f_equal.
    + apply map_eq. intros t. rewrite !without_lookup, set_camera_make_model_lookup.
      unfold removed_0th, tags_0th_remove.
      repeat case_decide; try done; set_solver.
    + apply map_eq. intros t. rewrite !without_lookup, set_camera_make_model_lookup.
      repeat case_decide; naive_solver.
  - cbv zeta. rewrite !strip_identifying_closed_form.
    repeat change (exif_get K0th (mkExif (Some ?a) _ _ _ _)) with a.
    repeat change (exif_get KExif (mkExif _ (Some ?a) _ _ _)) with a.
    split; [|repeat split; rewrite without_lookup, apply_extended_camera_profile_lookup;
              cbv zeta; unfold removed_Exif, tags_exif_remove, dates_removed;
              destruct (ad || negb pd);
              (rewrite decide_True by set_solver; reflexivity)
              || (rewrite decide_False by (vm_compute; set_solver);
                  profile_cases (str_lower profile); reflexivity)].
    apply map_eq. intros t. rewrite !without_lookup, apply_extended_camera_profile_lookup.
    cbv zeta. unfold removed_0th, tags_0th_remove.
    repeat case_decide; try done; set_solver.
Qed.

(** ** More on the deep scan *)

Lemma contains_infix {A} `{EqDecision A} (needle hay pre post : list A) :
  contains needle hay = true → contains needle (pre ++ hay ++ post) = true.
Proof.
  rewrite !contains_spec. intros (a & b & ->).
  exists (pre ++ a), (b ++ post). by rewrite <- !app_assoc.
Qed.

(** The reads hand over a prefix of the file. *)
Lemma read_calls_prefix (fuel n : nat) (data : pybytes) (fail_at : option nat) :
  ∃ post, data = bytes_read (read_calls fuel n data fail_at) ++ post.
Proof.
  revert data fail_at. induction fuel as [|fuel IH]; intros data fail_at.
  - exists data. by destruct fail_at as [[|?]|], data.
  - destruct fail_at as [[|k]|]; [by exists data| |].
    + destruct data as [|b data]; [by exists []|].
      rewrite read_calls_fail_later by done.
      destruct (IH (drop n (b :: data)) (Some k)) as [post Hpost].
      exists post. simpl bytes_read. rewrite <- app_assoc, <- Hpost.
      by rewrite take_drop.
    + destruct data as [|b data]; [by exists []|].
      rewrite read_calls_some by done.
      destruct (IH (drop n (b :: data)) None) as [post Hpost].
      exists post. simpl bytes_read. rewrite <- app_assoc, <- Hpost.
      by rewrite take_drop.
Qed.

(** A message of a window names a key that occurs in the window, or was
    there before. *)
Lemma scan_window_sound (keys : list pystr) (low : pybytes) (max_matches : Z)
    (matches : list pystr) (msg : pystr) :
  msg ∈ matches_of (scan_window keys low max_matches matches) →
  msg ∈ matches
  ∨ ∃ kw kb, kw ∈ keys ∧ msg = found_msg kw ∧ utf8_encode kw = Some kb
             ∧ contains kb low = true.
Proof.
  revert matches. induction keys as [|k keys IH]; intros matches; simpl; [by left|].
  assert (Hrec : ∀ m, msg ∈ matches_of (scan_window keys low max_matches m) →
                      (msg ∈ m → msg ∈ matches
                                 ∨ ∃ kw kb, kw ∈ k :: keys ∧ msg = found_msg kw
                                            ∧ utf8_encode kw = Some kb
                                            ∧ contains kb low = true) →
                      msg ∈ matches
                      ∨ ∃ kw kb, kw ∈ k :: keys ∧ msg = found_msg kw
                                 ∧ utf8_encode kw = Some kb
                                 ∧ contains kb low = true).
  { intros m Hm Hold. destruct (IH m Hm) as [Hin|(kw & kb & Hkw & ? & ? & ?)].
    - by apply Hold.
    - right. exists kw, kb. split; [by right | done]. }
  destruct (utf8_encode k) as [kb|] eqn:Hkb; [|by left].
  destruct (contains kb low) eqn:Hc; [|intros Hm; apply (Hrec matches Hm); by left].
  assert (Hnew : ∀ x, x ∈ matches ++ [found_msg k] →
                      x ∈ matches
                      ∨ ∃ kw kb, kw ∈ k :: keys ∧ x = found_msg kw
                                 ∧ utf8_encode kw = Some kb
                                 ∧ contains kb low = true).
  { intros x [Hx | ->%list_elem_of_singleton]%elem_of_app; [by left|].
    right. exists k, kb. split; [left | done]. }
  case_decide as Hin; [intros Hm; apply (Hrec matches Hm); by left|].
  case_decide as Hmax; [apply Hnew|].
  intros Hm. apply (Hrec _ Hm). apply Hnew.
Qed.

Lemma scan_reads_sound (keys : list pystr) (max_matches : Z) (whole : pybytes)
    (msg : pystr) (reads : list read_outcome) :
  ∀ leftover matches pre post,
    whole = pre ++ (leftover ++ bytes_read reads) ++ post →
    msg ∈ scan_reads keys max_matches reads leftover matches →
    msg ∈ matches
    ∨ ∃ kw kb, kw ∈ keys ∧ msg = found_msg kw ∧ utf8_encode kw = Some kb
               ∧ contains kb (bytes_lower whole) = true.
Proof.
  induction reads as [|[chunk|] reads IH]; intros leftover matches pre post Hwhole;
    [by left| |by left].
  destruct (decide (chunk = [])) as [->|Hne]; [by left|].
  rewrite scan_reads_cons by done.
  assert (Hwin : ∀ kb, contains kb (bytes_lower (leftover ++ chunk)) = true →
                       contains kb (bytes_lower whole) = true).
  { intros kb Hc. rewrite Hwhole. simpl bytes_read.
    rewrite (app_assoc leftover chunk), <- (app_assoc (leftover ++ chunk)).
    rewrite (bytes_lower_app pre), (bytes_lower_app (leftover ++ chunk)).
    by apply contains_infix. }
  pose proof (scan_window_sound keys (bytes_lower (leftover ++ chunk))
                max_matches matches msg) as Hw.
  destruct (scan_window _ _ _ _) as [m'|m']; simpl in Hw.
  - intros Hm.
    destruct (IH (last_bytes 64 (leftover ++ chunk)) m'
                (pre ++ take (length (leftover ++ chunk) - 64) (leftover ++ chunk))
                post) as [Hin|Hfound]; [|done| |by right].
    + rewrite Hwhole. simpl bytes_read. unfold last_bytes.
      set (d := (length (leftover ++ chunk) - 64)%nat).
      assert (Hsplit : ∀ rest, take d (leftover ++ chunk)
                               ++ drop d (leftover ++ chunk) ++ rest
                               = leftover ++ chunk ++ rest).
      { intros rest. by rewrite app_assoc, take_drop, <- app_assoc. }
      rewrite <- !app_assoc. by rewrite Hsplit.
    + destruct (Hw Hin) as [?|(kw & kb & ? & ? & ? & ?)]; [by left|].
      right. exists kw, kb. auto.
  - intros Hm. destruct (Hw Hm) as [?|(kw & kb & ? & ? & ? & ?)]; [by left|].
    right. exists kw, kb. auto.
Qed.

(** X7: the scan reports no keyword that is not in the file. For extra
    keywords of ASCII characters, whatever the cap and the read that fails,
    every message of [deep_scan_bytes] is ["bytes: found '<key>'"] for a
    key of the scanned list whose UTF-8 form occurs in the lower-cased
    bytes of the file. *)
Theorem deep_scan_bytes_sound (data : pybytes) (fail_at : option nat)
    (extra_keywords : option (list pystr)) (max_matches : Z) (msg : pystr) :
  ascii_keywords extra_keywords →
  msg ∈ deep_scan_bytes (Readable data fail_at) extra_keywords max_matches →
  ∃ kw kb, kw ∈ dedup_lower ∅ (scan_keywords extra_keywords)
           ∧ ascii kw
           ∧ msg = found_msg kw ∧ utf8_encode kw = Some kb
           ∧ contains kb (bytes_lower data) = true.
Proof.
  unfold deep_scan_bytes. intros Hascii Hmsg.
  destruct (read_calls_prefix (length data) chunk_size data fail_at) as [post Hpost].
  destruct (scan_reads_sound (dedup_lower ∅ (scan_keywords extra_keywords))
              max_matches data msg
              (read_calls (length data) chunk_size data fail_at) [] [] [] post)
    as [Hin|(kw & kb & Hkw & Hm & Hkb & Hc)]; [exact Hpost | exact Hmsg | |].
  - apply elem_of_nil in Hin. destruct Hin.
  - exists kw, kb. split; [exact Hkw|]. split.
    + pose proof (scan_keys_ascii extra_keywords Hascii) as Hall.
      rewrite Forall_forall in Hall. exact (Hall kw Hkw).
    + split; [exact Hm|]. split; [exact Hkb|exact Hc].
Qed.

(** A file that fits in one read is scanned as one window. *)
Lemma deep_scan_bytes_one_chunk (data : pybytes)
    (extra_keywords : option (list pystr)) (max_matches : Z) :
  (0 < length data ≤ chunk_size)%nat →
  deep_scan_bytes (Readable data None) extra_keywords max_matches
  = matches_of (scan_window (dedup_lower ∅ (scan_keywords extra_keywords))
                  (bytes_lower data) max_matches []).
Proof.
  intros [Hpos Hle]. unfold deep_scan_bytes.
  destruct data as [|b data]; [simpl in Hpos; lia|].
  change (length (b :: data)) with (S (length data)).
  rewrite read_calls_some by done.
  rewrite take_ge, drop_ge by done. rewrite read_calls_nil.
  rewrite scan_reads_cons by done.
  by destruct (scan_window _ _ _ _).
Qed.

Lemma small_file (data : pybytes) (n : nat) :
  length data = n → (0 < n)%nat → (n ≤ 1024)%nat →
  (0 < length data ≤ chunk_size)%nat.
Proof. intros -> ? ?. unfold chunk_size. lia. Qed.

(** A run of X7, with the extra keyword "DreamBooth". *)
Lemma deep_scan_bytes_sound_witness :
  let data := pyb "made with DreamBooth" in
  let extra_keywords := Some [py "DreamBooth"] in
  let msg := py "bytes: found 'dreambooth'" in
  ascii_keywords extra_keywords
  ∧ msg ∈ deep_scan_bytes (Readable data None) extra_keywords 20
  ∧ ∃ kw kb, kw ∈ dedup_lower ∅ (scan_keywords extra_keywords)
             ∧ ascii kw
             ∧ msg = found_msg kw ∧ utf8_encode kw = Some kb
             ∧ contains kb (bytes_lower data) = true.
Proof.
  intros data extra_keywords msg.
  assert (Hascii : ascii_keywords extra_keywords).
  { apply Forall_singleton. apply ascii_check. vm_compute. reflexivity. }
  assert (Hmsg : msg ∈ deep_scan_bytes (Readable data None) extra_keywords 20).
  { rewrite deep_scan_bytes_one_chunk
      by (apply (small_file _ 20); [reflexivity | lia | lia]).
    vm_compute. left. }
  split; [exact Hascii|]. split; [exact Hmsg|].
  exact (deep_scan_bytes_sound data None extra_keywords 20 msg Hascii Hmsg).
Defined.

(** A key without a UTF-8 form ends the scan at its turn: with a lone
    surrogate before it, the extra keyword "zzz" is not looked for. *)
Lemma unencodable_keyword_ends_scan :
  deep_scan_bytes (Readable (pyb "xxzzzxx") None)
    (Some [[55296%N]; py "zzz"]) 20 = [].
Proof.
  rewrite deep_scan_bytes_one_chunk
    by (apply (small_file _ 7); [reflexivity | lia | lia]).
  vm_compute. reflexivity.
Qed.

(** *** The cap *)

Lemma scan_window_cap (keys : list pystr) (low : pybytes) (max_matches : Z)
    (matches : list pystr) :
  Z.of_nat (length matches) < max_matches →
  match scan_window keys low max_matches matches with
  | Next matches' => Z.of_nat (length matches') < max_matches
  | Stop matches' => Z.of_nat (length matches') ≤ max_matches
  end.
Proof.
  revert matches. induction keys as [|k keys IH]; intros matches Hlen; simpl; [done|].
  destruct (utf8_encode k) as [kb|]; [|lia].
  destruct (contains kb low); [|by apply IH].
  case_decide; [by apply IH|].
  case_decide as Hmax.
  - rewrite length_app in *. simpl in *. lia.
  - apply IH. lia.
Qed.

Lemma scan_reads_cap (keys : list pystr) (max_matches : Z)
    (reads : list read_outcome) (leftover : pybytes) (matches : list pystr) :
  Z.of_nat (length matches) < max_matches →
  Z.of_nat (length (scan_reads keys max_matches reads leftover matches))
  ≤ max_matches.
Proof.
  revert leftover matches.
  induction reads as [|[chunk|] reads IH]; intros leftover matches Hlen; simpl; [lia| |lia].
  destruct chunk as [|b chunk]; [lia|].
  pose proof (scan_window_cap keys (bytes_lower (leftover ++ b :: chunk))
                max_matches matches Hlen) as Hw.
  destruct (scan_window _ _ _ _); [by apply IH | done].
Qed.

(** X8: with [max_matches] at least 1, [deep_scan_bytes] returns at most
    [max_matches] messages, for every file, also one that fails to open or
    to read, and every list of extra keywords. *)
Theorem deep_scan_bytes_at_most_max (file : file_state)
    (extra_keywords : option (list pystr)) (max_matches : Z) :
  1 ≤ max_matches →
  Z.of_nat (length (deep_scan_bytes file extra_keywords max_matches))
  ≤ max_matches.
Proof.
  intros Hmax. unfold deep_scan_bytes.
  destruct file as [|data fail_at]; [simpl; lia|].
  apply scan_reads_cap. simpl. lia.
Qed.

(** A run of X8: two keywords in the file, one message allowed. *)
Lemma deep_scan_bytes_at_most_max_witness :
  1 ≤ 1
  ∧ Z.of_nat (length (deep_scan_bytes (Readable (pyb "sdxl comfyui") None) None 1))
    ≤ 1.
Proof.
  assert (H : 1 ≤ 1) by lia.
  split; [exact H|].
  exact (deep_scan_bytes_at_most_max (Readable (pyb "sdxl comfyui") None) None 1 H).
Defined.

(** X9: [deep_scan_bytes] reports no message twice, also when a keyword
    occurs in several windows or in the overlap of two windows. *)
Theorem deep_scan_bytes_no_duplicates (file : file_state)
    (extra_keywords : option (list pystr)) (max_matches : Z) :
  NoDup (deep_scan_bytes file extra_keywords max_matches).
Proof.
  unfold deep_scan_bytes.
  destruct file as [|data fail_at]; [apply NoDup_nil_2|].
  set (keys := dedup_lower ∅ (scan_keywords extra_keywords)).
  apply (scan_reads_inv (found_msg <$> keys) keys max_matches
           (read_calls (length data) chunk_size data fail_at) [] []);
    [done | apply NoDup_nil_2 | by intros x ?%elem_of_nil].
Qed.

(** *** The list of keys *)

Lemma dedup_lower_app (a b : list pystr) (seen : gset pystr) :
  dedup_lower seen (a ++ b)
  = dedup_lower seen a ++ dedup_lower (list_to_set (str_lower <$> a) ∪ seen) b.
Proof.
  revert seen. induction a as [|k a IH]; intros seen; simpl.
  - f_equal. set_solver.
  - case_decide as Hseen.
    + rewrite IH. f_equal. f_equal. set_solver.
    + simpl. rewrite IH. f_equal. f_equal. f_equal. set_solver.
Qed.

(** X10: for extra keywords of ASCII characters, the list of keys that
    [deep_scan_bytes] builds has no duplicate, begins with the built-in
    keywords in their order, and holds exactly the built-in keywords and
    the non-empty extra keywords with their capitals turned into small
    letters: an extra keyword that differs from another one, or from a
    built-in one, only by case is scanned once. Every key has a UTF-8
    form, so the scan meets no encoding error. *)
Theorem scan_keys_spec (extra_keywords : option (list pystr)) :
  ascii_keywords extra_keywords →
  let keys := dedup_lower ∅ (scan_keywords extra_keywords) in
  NoDup keys
  ∧ (∃ rest, keys = AI_KEYWORDS ++ rest)
  ∧ (∀ k, k ∈ keys ↔
          k ∈ AI_KEYWORDS
          ∨ ∃ k0, k0 ∈ default [] extra_keywords ∧ k0 ≠ [] ∧ k = ascii_lower k0)
  ∧ encodable keys.
Proof.
  intros Hascii keys. unfold keys.
  destruct (dedup_lower_spec (scan_keywords extra_keywords) ∅) as [Hnd Hin].
  split; [exact Hnd|]. split.
  { unfold scan_keywords. rewrite dedup_lower_app.
    replace (dedup_lower ∅ AI_KEYWORDS) with AI_KEYWORDS
      by (vm_compute; reflexivity).
    eexists. reflexivity. }
  split; [|exact (ascii_keys_encodable extra_keywords Hascii)].
  assert (Hbuiltin : ∀ k, k ∈ AI_KEYWORDS → str_lower k = k).
  { intros k. revert k. apply Forall_forall.
    unfold AI_KEYWORDS. rewrite Forall_fmap.
    repeat (apply Forall_cons; split; [vm_compute; reflexivity|]).
    apply Forall_nil_2. }
  assert (Hextra : ∀ k0, k0 ∈ default [] extra_keywords →
                         str_lower k0 = ascii_lower k0).
  { intros k0 Hk0. apply str_lower_ascii.
    unfold ascii_keywords in Hascii. rewrite Forall_forall in Hascii.
    exact (Hascii k0 Hk0). }
  intros k. rewrite Hin. clear Hin Hnd. unfold scan_keywords. split.
  - intros (_ & k0 & [Hk0|Hk0]%elem_of_app & ->).
    + left. rewrite (Hbuiltin k0 Hk0). exact Hk0.
    + right. exists k0. destruct extra_keywords as [l|].
      * apply list_elem_of_filter in Hk0 as [Hne Hk0].
        split; [exact Hk0|]. split; [exact Hne|]. exact (Hextra k0 Hk0).
      * apply elem_of_nil in Hk0. destruct Hk0.
  - intros [Hk|(k0 & Hk0 & Hne & ->)].
    + split; [apply not_elem_of_empty|]. exists k.
      split; [apply elem_of_app; left; exact Hk|].
      symmetry. exact (Hbuiltin k Hk).
    + split; [apply not_elem_of_empty|]. exists k0.
      split; [|symmetry; exact (Hextra k0 Hk0)].
      apply elem_of_app. right. destruct extra_keywords as [l|].
      * apply list_elem_of_filter. split; [exact Hne|exact Hk0].
      * apply elem_of_nil in Hk0. destruct Hk0.
Qed.

(** A run of X10: "COMFYUI" is the built-in "comfyui", and "DreamBooth"
    and "dreambooth" are one key. *)
Lemma scan_keys_spec_witness :
  let extra_keywords := Some [py "COMFYUI"; py "DreamBooth"; py "dreambooth"] in
  let keys := dedup_lower ∅ (scan_keywords extra_keywords) in
  ascii_keywords extra_keywords
  ∧ keys = AI_KEYWORDS ++ [py "dreambooth"]
  ∧ NoDup keys
  ∧ (∃ rest, keys = AI_KEYWORDS ++ rest)
  ∧ (∀ k, k ∈ keys ↔
          k ∈ AI_KEYWORDS
          ∨ ∃ k0, k0 ∈ default [] extra_keywords ∧ k0 ≠ [] ∧ k = ascii_lower k0)
  ∧ encodable keys.
Proof.
  intros extra_keywords keys.
  assert (Hascii : ascii_keywords extra_keywords).
  { repeat (apply Forall_cons; split;
            [apply ascii_check; vm_compute; reflexivity|]).
    apply Forall_nil_2. }
  split; [exact Hascii|].
  split; [vm_compute; reflexivity|].
  exact (scan_keys_spec extra_keywords Hascii).
Defined.

(** ** The combined detector *)

Lemma byte_lower_idemp (b : byte) : byte_lower (byte_lower b) = byte_lower b.
Proof. destruct b; reflexivity. Qed.

Lemma bytes_lower_idemp (s : pybytes) : bytes_lower (bytes_lower s) = bytes_lower s.
Proof.
  unfold bytes_lower. rewrite <- list_fmap_compose.
  apply list_fmap_ext. intros _ b _. apply byte_lower_idemp.
Qed.

Lemma bytes_lower_length (s : pybytes) : length (bytes_lower s) = length s.
Proof. apply length_fmap. Qed.

Lemma bytes_lower_take (n : nat) (s : pybytes) :
  bytes_lower (take n s) = take n (bytes_lower s).
Proof. apply fmap_take. Qed.

Lemma bytes_lower_drop (n : nat) (s : pybytes) :
  bytes_lower (drop n s) = drop n (bytes_lower s).
Proof. apply fmap_drop. Qed.

(** The reads of the lower-cased file are the lower-cased reads. *)
Lemma read_calls_lower (n fuel : nat) (data : pybytes) (fail_at : option nat) :
  read_calls fuel n (bytes_lower data) fail_at
  = (λ r, match r with
          | ReadOk chunk => ReadOk (bytes_lower chunk)
          | ReadError => ReadError
          end) <$> read_calls fuel n data fail_at.
Proof.
  revert data fail_at. induction fuel as [|fuel IH]; intros data fail_at.
  { destruct fail_at as [[|k]|]; reflexivity. }
  destruct fail_at as [[|k]|]; [reflexivity| |];
    (destruct data as [|b data]; [reflexivity|]);
    change (bytes_lower (b :: data)) with (byte_lower b :: bytes_lower data);
    cbn [read_calls fmap list_fmap option_fmap option_map];
    change (byte_lower b :: bytes_lower data) with (bytes_lower (b :: data));
    rewrite <- bytes_lower_take, <- bytes_lower_drop, IH; reflexivity.
Qed.

(** The scan sees the windows in lower case only. *)
Lemma scan_reads_lower (keys : list pystr) (max_matches : Z)
    (reads : list read_outcome) :
  ∀ leftover leftover' matches,
    bytes_lower leftover' = bytes_lower leftover →
    scan_reads keys max_matches
      ((λ r, match r with
             | ReadOk chunk => ReadOk (bytes_lower chunk)
             | ReadError => ReadError
             end) <$> reads) leftover' matches
    = scan_reads keys max_matches reads leftover matches.
Proof.
  induction reads as [|[chunk|] reads IH]; intros leftover leftover' matches Hl;
    [reflexivity| |reflexivity].
  destruct chunk as [|b chunk]; [reflexivity|].
  rewrite fmap_cons.
  change (bytes_lower (b :: chunk)) with (byte_lower b :: bytes_lower chunk).
  cbn [scan_reads].
  change (byte_lower b :: bytes_lower chunk) with (bytes_lower (b :: chunk)).
  assert (Hw : bytes_lower (leftover' ++ bytes_lower (b :: chunk))
               = bytes_lower (leftover ++ b :: chunk)).
  { rewrite (bytes_lower_app leftover'), (bytes_lower_app leftover).
    rewrite bytes_lower_idemp, Hl. reflexivity. }
  rewrite Hw.
  destruct (scan_window keys (bytes_lower (leftover ++ b :: chunk))
              max_matches matches) as [matches'|matches']; [|reflexivity].
  apply IH.
  rewrite !bytes_lower_last_bytes. rewrite Hw. reflexivity.
Qed.

(** X11: the byte scan does not see the letter case of the file: the file
    and its lower-case form give the same messages, also when a read
    fails. *)
Theorem deep_scan_bytes_case_insensitive (data : pybytes)
    (fail_at : option nat) (extra_keywords : option (list pystr))
    (max_matches : Z) :
  deep_scan_bytes (Readable (bytes_lower data) fail_at) extra_keywords max_matches
  = deep_scan_bytes (Readable data fail_at) extra_keywords max_matches.
Proof.
  unfold deep_scan_bytes.
  rewrite bytes_lower_length, read_calls_lower.
  apply scan_reads_lower. reflexivity.
Qed.

(** X12: the flag of [detect_ai] says that there is a reason: it is true
    exactly when the list of reasons is not empty, with and without the
    deep scan. *)
Theorem detect_ai_flag_iff_reasons (file : file_state)
    (readable_exif : ReadableExif) (do_deep_scan : bool) :
  (detect_ai file readable_exif do_deep_scan).1 = true
  ↔ (detect_ai file readable_exif do_deep_scan).2 ≠ [].
Proof.
  unfold detect_ai, detect_ai_from_exif_readable.
  generalize (deep_scan_bytes file None 20).
  generalize ([K0th; KExif; K1st] ≫= λ k,
                readable_get k readable_exif ≫= field_reasons k).
  intros reasons deep_reasons.
  destruct do_deep_scan; cbn [fst snd].
  - rewrite orb_true_iff, !bool_decide_eq_true.
    destruct reasons as [|r reasons]; cbn [length app].
    + split; [intros [H|H]; [lia|exact H] | intros H; right; exact H].
    + split; [intros _; discriminate | intros _; left; lia].
  - rewrite bool_decide_eq_true.
    destruct reasons as [|r reasons]; cbn [length].
    + split; [lia | intros H; destruct H; reflexivity].
    + split; [intros _; discriminate | intros _; lia].
Qed.

(** X13: with the deep scan, a built-in keyword anywhere in the bytes of the
    file, in any letter case, makes [detect_ai] flag the file, and its
    message is among the reasons, whatever the EXIF data says. *)
Theorem detect_ai_deep_scan_complete (data : pybytes)
    (readable_exif : ReadableExif) (kw : pystr) (kb : pybytes) :
  kw ∈ AI_KEYWORDS → utf8_encode kw = Some kb →
  contains kb (bytes_lower data) = true →
  (detect_ai (Readable data None) readable_exif true).1 = true
  ∧ found_msg kw ∈ (detect_ai (Readable data None) readable_exif true).2.
Proof.
  intros Hkw Hkb Hin.
  pose proof (deep_scan_bytes_default_finds data kw kb Hkw Hkb Hin) as Hfound.
  unfold detect_ai, detect_ai_from_exif_readable.
  revert Hfound. generalize (deep_scan_bytes (Readable data None) None 20).
  generalize ([K0th; KExif; K1st] ≫= λ k,
                readable_get k readable_exif ≫= field_reasons k).
  intros reasons deep_reasons Hfound. cbn [fst snd]. split.
  - apply orb_true_iff. right. apply bool_decide_eq_true.
    intros ->. apply elem_of_nil in Hfound. exact Hfound.
  - apply elem_of_app. right. exact Hfound.
Qed.

Lemma detect_ai_deep_scan_complete_witness :
  let data := pyb "Prompt: a cat; made with ComfyUI" in
  let readable_exif := mkReadable None None None None None in
  let kw := py "comfyui" in
  let kb := pyb "comfyui" in
  kw ∈ AI_KEYWORDS ∧ utf8_encode kw = Some kb
  ∧ contains kb (bytes_lower data) = true
  ∧ (detect_ai (Readable data None) readable_exif true).1 = true
  ∧ found_msg kw ∈ (detect_ai (Readable data None) readable_exif true).2.
Proof.
  intros data readable_exif kw kb.
  assert (Hkw : kw ∈ AI_KEYWORDS).
  { unfold AI_KEYWORDS, kw. apply list_elem_of_fmap.
    exists "comfyui"%string. split; [reflexivity|]. right. right. left. }
  assert (Hkb : utf8_encode kw = Some kb) by reflexivity.
  assert (Hin : contains kb (bytes_lower data) = true) by reflexivity.
  split; [exact Hkw|]. split; [exact Hkb|]. split; [exact Hin|].
  exact (detect_ai_deep_scan_complete data readable_exif kw kb Hkw Hkb Hin).
Defined.

(** ** Destinations and writes *)

Lemma kept_or_new_dir_refl (fs : filesystem) (p : Path) : kept_or_new_dir fs fs p.
Proof. left. reflexivity. Qed.

Lemma kept_or_new_dir_trans (fs1 fs2 fs3 : filesystem) (p : Path) :
  kept_or_new_dir fs1 fs2 p → kept_or_new_dir fs2 fs3 p → kept_or_new_dir fs1 fs3 p.
Proof.
  unfold kept_or_new_dir.
  intros [H1|[H1 H1']] [H2|[H2 H2']]; try (left; congruence); right; split; congruence.
Qed.

Lemma kept_or_new_dir_read (fs fs' : filesystem) (p : Path) (content : pybytes) :
  kept_or_new_dir fs fs' p → read_bytes fs p = Some content →
  read_bytes fs' p = Some content.
Proof.
  unfold read_bytes. intros [H|[H _]] Hr.
  - rewrite H. exact Hr.
  - rewrite H in Hr. discriminate.
Qed.

Lemma kept_or_new_dir_is_dir (fs fs' : filesystem) (p : Path) :
  kept_or_new_dir fs fs' p → is_dir fs p = true → is_dir fs' p = true.
Proof.
  unfold is_dir. destruct (p.2) as [|c l]; [reflexivity|].
  intros [H|[H _]] Hd; apply bool_decide_eq_true in Hd; apply bool_decide_eq_true.
  - rewrite H. exact Hd.
  - rewrite H in Hd. discriminate.
Qed.

Lemma mkdir_parents_kept (q : Path) (fs : filesystem) (p : Path) :
  kept_or_new_dir fs (mkdir_parents q fs).1 p.
Proof. apply mkdir_parents_adds_dirs. Qed.

Lemma make_output_path_kept (src : Path) (opts : ModifyOptions)
    (fs : filesystem) (p : Path) :
  kept_or_new_dir fs (make_output_path src opts fs).1 p.
Proof. apply make_output_path_adds_dirs. Qed.

(** A [mkdir] that returns leaves a directory at its path. *)
Lemma mkdir_from_is_dir (anchor : bool) (below : list pystr) :
  ∀ above fs fs',
    below ≠ [] →
    mkdir_from anchor above below fs = (fs', true) →
    fs' !! (anchor, above ++ below) = Some Dir.
Proof.
  induction below as [|c below IH]; intros above fs fs' Hne Hrun; [done|].
  cbn [mkdir_from] in Hrun.
  destruct below as [|c' below].
  - destruct (fs !! (anchor, above ++ [c])) as [[content|]|] eqn:Hq;
      cbn [mkdir_from] in Hrun; inversion Hrun; subst.
    + exact Hq.
    + apply lookup_insert_eq.
  - rewrite (cons_middle c above (c' :: below)), app_assoc.
    destruct (fs !! (anchor, above ++ [c])) as [[content|]|] eqn:Hq.
    + inversion Hrun.
    + exact (IH (above ++ [c]) fs fs' ltac:(discriminate) Hrun).
    + exact (IH (above ++ [c]) _ fs' ltac:(discriminate) Hrun).
Qed.

Lemma mkdir_parents_is_dir (p : Path) (fs fs' : filesystem) :
  mkdir_parents p fs = (fs', true) → is_dir fs' p = true.
Proof.
  destruct p as [anchor l]. unfold mkdir_parents, is_dir. cbn [fst snd].
  destruct l as [|c l]; [reflexivity|]. intros Hrun.
  apply bool_decide_eq_true.
  exact (mkdir_from_is_dir anchor (c :: l) [] fs fs' ltac:(discriminate) Hrun).
Qed.

(** A write that returns has replaced one entry by the file. *)
Lemma write_file_Some (p : Path) (data : pybytes) (fs fs' : filesystem) :
  write_file p data fs = Some fs' →
  fs' = <[p := File data]> fs ∧ is_dir fs p = false
  ∧ is_dir fs (path_parent p) = true.
Proof.
  unfold write_file. destruct (is_dir fs p); [discriminate|].
  destruct (is_dir fs (path_parent p)); [|discriminate].
  intros [= <-]. done.
Qed.

Lemma write_file_read (p : Path) (data : pybytes) (fs fs' : filesystem) :
  write_file p data fs = Some fs' → read_bytes fs' p = Some data.
Proof.
  intros (-> & _ & _)%write_file_Some. unfold read_bytes.
  rewrite lookup_insert_eq. reflexivity.
Qed.

Lemma write_file_other (p : Path) (data : pybytes) (fs fs' : filesystem) (q : Path) :
  write_file p data fs = Some fs' → q ≠ p → fs' !! q = fs !! q.
Proof.
  intros (-> & _ & _)%write_file_Some Hne. apply lookup_insert_ne. congruence.
Qed.




(** X14: when [make_output_path] computes a destination in [out_dir], the
    destination lies below [out_dir], and [out_dir] and the parent of the
    destination are directories afterwards. A source that is an absolute
    path [base_input_dir / rel] goes to [out_dir / rel]. *)
Theorem make_output_path_destination (src : Path) (opts : ModifyOptions)
    (fs fs' : filesystem) (out_dir dest : Path) :
  mo_in_place opts = false → mo_out_dir opts = Some out_dir →
  make_output_path src opts fs = (fs', Some dest) →
  (∃ rel, dest = (out_dir.1, out_dir.2 ++ rel))
  ∧ is_dir fs' out_dir = true
  ∧ is_dir fs' (path_parent dest) = true
  ∧ ∀ base rel,
      mo_base_input_dir opts = Some base → src = (true, base.2 ++ rel) →
      base.1 = true → dest = (out_dir.1, out_dir.2 ++ rel).
Proof.
  intros Hin Hout. unfold make_output_path. rewrite Hout, Hin.
  destruct (mkdir_parents out_dir fs) as [fs1 ok1] eqn:Hmk1.
  destruct ok1; [|intros [= _ ?]; discriminate].
  set (rel0 := match mo_base_input_dir opts with
               | Some base =>
                   if is_absolute src
                   then default (name_path src) (relative_to src base)
                   else name_path src
               | None => name_path src
               end).
  assert (Hrel : rel0.1 = false).
  { unfold rel0. destruct (mo_base_input_dir opts) as [base|]; [|reflexivity].
    destruct (is_absolute src); [|reflexivity].
    unfold relative_to. case_decide; reflexivity. }
  assert (Hdest : joinpath out_dir rel0 = (out_dir.1, out_dir.2 ++ rel0.2)).
  { unfold joinpath. rewrite Hrel. reflexivity. }
  rewrite Hdest.
  destruct (mkdir_parents (path_parent (out_dir.1, out_dir.2 ++ rel0.2)) fs1)
    as [fs2 ok2] eqn:Hmk2.
  destruct ok2; [|intros [= _ ?]; discriminate].
  intros [= <- <-].
  split; [by exists rel0.2|]. split.
  - apply (kept_or_new_dir_is_dir fs1).
    + pose proof (mkdir_parents_kept
                    (path_parent (out_dir.1, out_dir.2 ++ rel0.2)) fs1 out_dir) as H.
      rewrite Hmk2 in H. exact H.
    + exact (mkdir_parents_is_dir _ _ _ Hmk1).
  - split; [exact (mkdir_parents_is_dir _ _ _ Hmk2)|].
    intros base rel Hbase -> Hanchor. f_equal. f_equal.
    unfold rel0. rewrite Hbase. cbn [is_absolute fst].
    unfold relative_to. cbn [fst snd].
    rewrite take_app_length, drop_app_length, Hanchor.
    rewrite decide_True by done. reflexivity.
Qed.

Lemma make_output_path_destination_witness :
  let src : Path := (true, [py "d"; py "in"; py "a"; py "p.jpg"]) in
  let base : Path := (true, [py "d"; py "in"]) in
  let out : Path := (false, [py "o"]) in
  let opts :=
    mkOptions true None false true false false false None (Some out) false
              (Some base) in
  let dest : Path := (false, [py "o"; py "a"; py "p.jpg"]) in
  let fs' : filesystem := (make_output_path src opts ∅).1 in
  make_output_path src opts ∅ = (fs', Some dest)
  ∧ is_dir fs' out = true ∧ is_dir fs' (path_parent dest) = true.
Proof.
  intros src base out opts dest fs'.
  assert (Hrun : make_output_path src opts ∅ = (fs', Some dest))
    by (vm_compute; reflexivity).
  split; [exact Hrun|].
  pose proof (make_output_path_destination src opts ∅ fs' out dest
                eq_refl eq_refl Hrun) as (_ & H1 & H2 & _).
  split; [exact H1 | exact H2].
Defined.

Lemma plain_check (p : Path) :
  forallb (λ c, negb (bool_decide (c = py ".."))) p.2 = true → plain p.
Proof.
  unfold plain. rewrite forallb_forall. intros H Hin%list_elem_of_In.
  specialize (H _ Hin). apply negb_true_iff, bool_decide_eq_false in H.
  apply H. reflexivity.
Qed.

(** The destination of plain paths is a plain path of the same anchor. *)
Lemma make_output_path_plain (src : Path) (opts : ModifyOptions)
    (fs : filesystem) (dest : Path) :
  plain src →
  (∀ out_dir, mo_out_dir opts = Some out_dir →
              plain out_dir ∧ out_dir.1 = src.1) →
  (make_output_path src opts fs).2 = Some dest →
  plain dest ∧ dest.1 = src.1.
Proof.
  intros Hsrc Hout. unfold make_output_path.
  destruct (mo_out_dir opts) as [out_dir|];
    [|cbn [snd]; intros H; injection H as <-; split; [exact Hsrc|reflexivity]].
  destruct (Hout out_dir eq_refl) as [Hplain Hanchor].
  destruct (mo_in_place opts);
    [cbn [snd]; intros H; injection H as <-; split; [exact Hsrc|reflexivity]|].
  destruct (mkdir_parents out_dir fs) as [fs1 ok1].
  destruct ok1; [|cbn [snd]; discriminate].
  set (rel0 := match mo_base_input_dir opts with
               | Some base =>
                   if is_absolute src
                   then default (name_path src) (relative_to src base)
                   else name_path src
               | None => name_path src
               end).
  assert (Hname : (name_path src).1 = false ∧ ∀ c, c ∈ (name_path src).2 → c ∈ src.2).
  { unfold name_path. cbn [fst snd]. split; [reflexivity|].
    destruct (last src.2) as [n|] eqn:Hlast.
    - intros c ->%list_elem_of_singleton. exact (last_Some_elem_of _ _ Hlast).
    - intros c Hc. apply elem_of_nil in Hc. destruct Hc. }
  assert (Hrel : rel0.1 = false ∧ ∀ c, c ∈ rel0.2 → c ∈ src.2).
  { unfold rel0. destruct (mo_base_input_dir opts) as [base|]; [|exact Hname].
    destruct (is_absolute src); [|exact Hname].
    unfold relative_to. case_decide; [|exact Hname].
    cbn [from_option id fst snd]. split; [reflexivity|].
    intros c Hc. exact (subseteq_drop _ _ c Hc). }
  destruct Hrel as [Hrel1 Hrel2].
  assert (Hdest : joinpath out_dir rel0 = (out_dir.1, out_dir.2 ++ rel0.2)).
  { unfold joinpath. rewrite Hrel1. reflexivity. }
  rewrite Hdest.
  destruct (mkdir_parents (path_parent (out_dir.1, out_dir.2 ++ rel0.2)) fs1)
    as [fs2 ok2].
  destruct ok2; [|cbn [snd]; discriminate].
  cbn [snd]. intros H. injection H as <-. cbn [fst snd]. split; [|exact Hanchor].
  unfold plain. cbn [snd]. intros [Hin|Hin]%elem_of_app.
  - exact (Hplain Hin).
  - exact (Hsrc (Hrel2 _ Hin)).
Qed.

Section Runs.

Variable image_format : pybytes → option pystr.
Variable piexif_load : pybytes → option ExifDict.
Variable piexif_dump : ExifDict → option pybytes.
Variable piexif_insert : pybytes → pybytes → option pybytes.

Lemma supported_source_is_file (fs : filesystem) (src : Path) :
  is_supported_for_write image_format fs src = true →
  ∃ content, read_bytes fs src = Some content.
Proof.
  unfold is_supported_for_write, get_image_format.
  destruct (read_bytes fs src) as [content|]; [by exists content|].
  cbn. discriminate.
Qed.


(** When [write_bytes] returns outside a dry run, the destination holds
    the data. *)
Lemma write_bytes_writes (dest : Path) (data : pybytes) (opts : ModifyOptions)
    (fs fs' : filesystem) :
  mo_dry_run opts = false →
  write_bytes dest data opts fs = (fs', true) →
  read_bytes fs' dest = Some data.
Proof.
  intros Hdry. unfold write_bytes. rewrite Hdry. cbn [negb].
  destruct (mo_in_place opts).
  - destruct (if truthy (mo_backup_ext opts) then _ else _) as [fs1|];
      [|intros [= _ ?]; discriminate].
    destruct (write_file dest data fs1) as [fs2|] eqn:Hw; [|intros [= _ ?]; discriminate].
    intros [= <-]. exact (write_file_read _ _ _ _ Hw).
  - destruct (mkdir_parents (path_parent dest) fs) as [fs1 ok].
    destruct ok; [|intros [= _ ?]; discriminate].
    destruct (write_file dest data fs1) as [fs2|] eqn:Hw; [|intros [= _ ?]; discriminate].
    intros [= <-]. exact (write_file_read _ _ _ _ Hw).
Qed.

(** Without [in_place], [write_bytes] changes the destination only. *)
Lemma write_bytes_not_in_place (dest : Path) (data : pybytes)
    (opts : ModifyOptions) (fs : filesystem) (p : Path) :
  mo_in_place opts = false → p ≠ dest →
  kept_or_new_dir fs (write_bytes dest data opts fs).1 p.
Proof.
  intros Hin Hne. unfold write_bytes. rewrite Hin.
  destruct (negb (mo_dry_run opts)); [|apply kept_or_new_dir_refl].
  pose proof (mkdir_parents_kept (path_parent dest) fs p) as H.
  destruct (mkdir_parents (path_parent dest) fs) as [fs1 ok]. cbn [fst] in H.
  destruct ok; [|exact H].
  destruct (write_file dest data fs1) as [fs2|] eqn:Hw; [|exact H].
  cbn [fst]. apply (kept_or_new_dir_trans _ fs1); [exact H|].
  left. exact (write_file_other _ _ _ _ _ Hw Hne).
Qed.

(** A successful run that is not a dry run: the source is a regular file,
    and the destination holds the source image with the dump of the
    transformed EXIF dict inserted. *)
Lemma run_success (src : Path) (opts : ModifyOptions) (fs fs' : filesystem)
    (err : option failure) (d : option Path) :
  mo_dry_run opts = false →
  apply_strip_and_replace image_format piexif_load piexif_dump piexif_insert
    src opts fs = (fs', Returned true err d) →
  ∃ dest content exif_bytes data,
    d = Some dest ∧ err = None
    ∧ (make_output_path src opts fs).2 = Some dest
    ∧ read_bytes fs src = Some content
    ∧ piexif_dump
        (ensure_exif_structure
           (Some (transform_exif opts
                    (default (ensure_exif_structure (Some empty_exif))
                       (load_exif_dict piexif_load fs src)))))
      = Some exif_bytes
    ∧ piexif_insert exif_bytes content = Some data
    ∧ read_bytes fs' dest = Some data.
Proof.
  intros Hdry. unfold apply_strip_and_replace. rewrite Hdry.
  destruct (is_supported_for_write image_format fs src) eqn:Hsup;
    cbn [negb]; [|intros [= _ ?]; discriminate].
  destruct (supported_source_is_file fs src Hsup) as [content Hsrc].
  set (exif := transform_exif opts _).
  pose proof (make_output_path_kept src opts fs src) as Hkept.
  destruct (make_output_path src opts fs) as [fs1 [dest|]];
    [|intros [= _ ?]; discriminate].
  cbn [fst snd] in *.
  pose proof (kept_or_new_dir_read _ _ _ _ Hkept Hsrc) as Hsrc1.
  destruct (bool_decide (is_Some (mo_out_dir opts)) && bool_decide (dest ≠ src)).
  - pose proof (mkdir_parents_kept (path_parent dest) fs1 src) as Hkept2.
    destruct (mkdir_parents (path_parent dest) fs1) as [fs2 ok]. cbn [fst] in Hkept2.
    pose proof (kept_or_new_dir_read _ _ _ _ Hkept2 Hsrc1) as Hsrc2.
    destruct ok; [|intros [= _ ?]; discriminate].
    unfold write_exif_to_file.
    destruct (piexif_dump (ensure_exif_structure (Some exif)))
      as [exif_bytes|] eqn:Hdump;
      cbn [mbind option_bind]; [|intros [= _ ?]; discriminate].
    rewrite Hsrc2. cbn [mbind option_bind].
    destruct (piexif_insert exif_bytes content) as [data|] eqn:Hins;
      cbn [mbind option_bind]; [|intros [= _ ?]; discriminate].
    destruct (write_file dest data fs2) as [fs3|] eqn:Hw;
      [|intros [= _ ?]; discriminate].
    intros [= <- <- <-]. exists dest, content, exif_bytes, data.
    split; [reflexivity|]. split; [reflexivity|]. split; [reflexivity|].
    split; [exact Hsrc|]. split; [reflexivity|]. split; [exact Hins|].
    exact (write_file_read _ _ _ _ Hw).
  - unfold write_exif_to_image_bytes.
    destruct (piexif_dump (ensure_exif_structure (Some exif)))
      as [exif_bytes|] eqn:Hdump;
      cbn [mbind option_bind]; [|intros [= _ ?]; discriminate].
    rewrite Hsrc1. cbn [mbind option_bind].
    destruct (piexif_insert exif_bytes content) as [data|] eqn:Hins;
      [|intros [= _ ?]; discriminate].
    destruct (write_bytes dest data opts fs1) as [fs2 ok] eqn:Hw.
    destruct ok; [|intros [= _ ?]; discriminate].
    intros [= <- <- <-]. exists dest, content, exif_bytes, data.
    split; [reflexivity|]. split; [reflexivity|]. split; [reflexivity|].
    split; [exact Hsrc|]. split; [reflexivity|]. split; [exact Hins|].
    exact (write_bytes_writes _ _ _ _ _ Hdry Hw).
Qed.

(** X15: a run that reports success outside a dry run has written the
    destination it names: the source image with its EXIF block replaced by
    the dump of the stripped and replaced dict. Success comes with a
    destination and without an error message. *)
Theorem apply_strip_and_replace_writes_transformed (src : Path)
    (opts : ModifyOptions) (fs fs' : filesystem) (err : option failure)
    (d : option Path) :
  mo_dry_run opts = false →
  apply_strip_and_replace image_format piexif_load piexif_dump piexif_insert
    src opts fs = (fs', Returned true err d) →
  ∃ dest content exif_bytes data,
    d = Some dest ∧ err = None
    ∧ read_bytes fs src = Some content
    ∧ piexif_dump
        (ensure_exif_structure
           (Some (transform_exif opts
                    (default (ensure_exif_structure (Some empty_exif))
                       (load_exif_dict piexif_load fs src)))))
      = Some exif_bytes
    ∧ piexif_insert exif_bytes content = Some data
    ∧ read_bytes fs' dest = Some data.
Proof.
  intros Hdry Hrun.
  destruct (run_success src opts fs fs' err d Hdry Hrun)
    as (dest & content & exif_bytes & data & H1 & H2 & _ & H3 & H4 & H5 & H6).
  exists dest, content, exif_bytes, data.
  split; [exact H1|]. split; [exact H2|]. split; [exact H3|].
  split; [exact H4|]. split; [exact H5|exact H6].
Qed.


(** The destination that a run reports is the one [make_output_path]
    computes. *)
Lemma reported_dest_make_output_path (src : Path) (opts : ModifyOptions)
    (fs : filesystem) (dest : Path) :
  reported_dest
    (apply_strip_and_replace image_format piexif_load piexif_dump
       piexif_insert src opts fs).2 = Some dest →
  (make_output_path src opts fs).2 = Some dest.
Proof.
  unfold apply_strip_and_replace.
  destruct (negb _); [cbn; discriminate|].
  destruct (mo_dry_run opts).
  { destruct (make_output_path src opts fs) as [fs1 [d|]]; cbn;
      [intros H; exact H|discriminate]. }
  destruct (make_output_path src opts fs) as [fs1 [d|]]; [|cbn; discriminate].
  destruct (bool_decide (is_Some (mo_out_dir opts)) && bool_decide (d ≠ src)).
  - destruct (mkdir_parents (path_parent d) fs1) as [fs2 ok].
    destruct (if ok then write_exif_to_file piexif_dump piexif_insert src d _ fs2
              else None) as [fs3|]; cbn; intros H; exact H.
  - destruct (write_exif_to_image_bytes piexif_dump piexif_insert fs1 src _)
      as [data_out|]; [|cbn; discriminate].
    destruct (write_bytes d data_out opts fs1) as [fs2 [|]]; cbn;
      intros H; exact H.
Qed.

(** X17: without [in_place], a run changes no path but the destination it
    reports, whatever the outcome: every other path keeps its entry, or is
    a directory created where nothing was. So the source is left as it was
    whenever the destination is another path. The paths are plain paths of
    one anchor (the source, [out_dir] and the path that is asked about), so
    that two of them name two files; the destination is then such a path
    too. *)
Theorem not_in_place_changes_only_destination (src : Path)
    (opts : ModifyOptions) (fs : filesystem) (p : Path) :
  mo_in_place opts = false →
  plain src → plain p → p.1 = src.1 →
  (∀ out_dir, mo_out_dir opts = Some out_dir →
              plain out_dir ∧ out_dir.1 = src.1) →
  let result :=
    apply_strip_and_replace image_format piexif_load piexif_dump
      piexif_insert src opts fs in
  reported_dest result.2 ≠ Some p →
  kept_or_new_dir fs result.1 p
  ∧ ∀ dest, reported_dest result.2 = Some dest → plain dest ∧ dest.1 = src.1.
Proof.
  intros Hin Hsrc Hp Hanchor Hout result Hdest. split.
  2: { intros dest Hd.
       exact (make_output_path_plain src opts fs dest Hsrc Hout
                (reported_dest_make_output_path src opts fs dest Hd)). }
  clear Hsrc Hp Hanchor Hout. revert Hdest.
  unfold result, apply_strip_and_replace.
  destruct (negb _); [intros _; apply kept_or_new_dir_refl|].
  set (exif := transform_exif opts _).
  pose proof (make_output_path_kept src opts fs p) as Hkept.
  destruct (mo_dry_run opts).
  { destruct (make_output_path src opts fs) as [fs1 [dest|]]; intros _; exact Hkept. }
  destruct (make_output_path src opts fs) as [fs1 [dest|]]; [|intros _; exact Hkept].
  cbn [fst] in Hkept.
  destruct (bool_decide (is_Some (mo_out_dir opts)) && bool_decide (dest ≠ src)).
  - pose proof (mkdir_parents_kept (path_parent dest) fs1 p) as Hkept2.
    destruct (mkdir_parents (path_parent dest) fs1) as [fs2 ok]. cbn [fst] in Hkept2.
    pose proof (kept_or_new_dir_trans _ _ _ _ Hkept Hkept2) as Hk.
    destruct ok; [|intros _; exact Hk].
    destruct (write_exif_to_file piexif_dump piexif_insert src dest exif fs2)
      as [fs3|] eqn:Hw; [|intros _; exact Hk].
    cbn [fst snd reported_dest]. intros Hp.
    apply (kept_or_new_dir_trans _ fs2); [exact Hk|]. left.
    revert Hw. unfold write_exif_to_file.
    destruct (piexif_dump _) as [exif_bytes|]; cbn [mbind option_bind]; [|discriminate].
    destruct (read_bytes fs2 src) as [content|]; cbn [mbind option_bind]; [|discriminate].
    destruct (piexif_insert exif_bytes content) as [data|];
      cbn [mbind option_bind]; [|discriminate].
    intros Hw. apply (write_file_other _ _ _ _ _ Hw). congruence.
  - destruct (write_exif_to_image_bytes piexif_dump piexif_insert fs1 src exif)
      as [data_out|]; [|intros _; exact Hkept].
    destruct (decide (p = dest)) as [->|Hne].
    + destruct (write_bytes dest data_out opts fs1) as [fs2 [|]];
        cbn [fst snd reported_dest]; intros Hp; congruence.
    + pose proof (write_bytes_not_in_place dest data_out opts fs1 p Hin Hne) as Hw.
      destruct (write_bytes dest data_out opts fs1) as [fs2 [|]];
        cbn [fst snd] in *; intros _;
        exact (kept_or_new_dir_trans _ _ _ _ Hkept Hw).
Qed.


End Runs.

Lemma apply_strip_and_replace_writes_transformed_witness :
  let src : Path := (false, [py "p.jpg"]) in
  let opts :=
    mkOptions true None false true false false false None
              (Some (false, [py "o"])) false None in
  let fs : filesystem := {[ src := File (pyb "jpeg") ]} in
  let result :=
    apply_strip_and_replace (λ _, Some (py "JPEG")) (λ _, None)
      (λ _, Some (pyb "exif:")) (λ e d, Some (e ++ d)) src opts fs in
  mo_dry_run opts = false
  ∧ result = (result.1, Returned true None (Some (false, [py "o"; py "p.jpg"])))
  ∧ ∃ dest content exif_bytes data,
      Some (false, [py "o"; py "p.jpg"]) = Some dest ∧ None = @None failure
      ∧ read_bytes fs src = Some content
      ∧ Some (pyb "exif:") = Some exif_bytes
      ∧ Some (exif_bytes ++ content) = Some data
      ∧ read_bytes result.1 dest = Some data.
Proof.
  intros src opts fs result.
  assert (Hrun : result
                 = (result.1,
                    Returned true None (Some (false, [py "o"; py "p.jpg"]))))
    by (vm_compute; reflexivity).
  split; [reflexivity|]. split; [exact Hrun|].
  exact (apply_strip_and_replace_writes_transformed
           (λ _, Some (py "JPEG")) (λ _, None) (λ _, Some (pyb "exif:"))
           (λ e d, Some (e ++ d)) src opts fs result.1 None
           (Some (false, [py "o"; py "p.jpg"])) eq_refl Hrun).
Defined.


Lemma not_in_place_changes_only_destination_witness :
  let src : Path := (false, [py "p.jpg"]) in
  let out : Path := (false, [py "o"]) in
  let opts :=
    mkOptions true None false true false false false None
              (Some out) false None in
  let fs : filesystem := {[ src := File (pyb "jpeg") ]} in
  let result :=
    apply_strip_and_replace (λ _, Some (py "JPEG")) (λ _, None)
      (λ _, Some (pyb "exif:")) (λ e d, Some (e ++ d)) src opts fs in
  plain src ∧ plain out
  ∧ reported_dest result.2 ≠ Some src
  ∧ kept_or_new_dir fs result.1 src
  ∧ ∀ dest, reported_dest result.2 = Some dest → plain dest ∧ dest.1 = src.1.
Proof.
  intros src out opts fs result.
  assert (Hsrc : plain src).
  { apply plain_check. vm_compute. reflexivity. }
  assert (Hplain : plain out).
  { apply plain_check. vm_compute. reflexivity. }
  assert (Hout : ∀ out_dir, mo_out_dir opts = Some out_dir →
                            plain out_dir ∧ out_dir.1 = src.1).
  { intros out_dir H. injection H as <-. split; [exact Hplain|reflexivity]. }
  assert (Hdest : reported_dest result.2 ≠ Some src)
    by (vm_compute; discriminate).
  split; [exact Hsrc|]. split; [exact Hplain|]. split; [exact Hdest|].
  exact (not_in_place_changes_only_destination
           (λ _, Some (py "JPEG")) (λ _, None) (λ _, Some (pyb "exif:"))
           (λ e d, Some (e ++ d)) src opts fs src eq_refl Hsrc Hsrc eq_refl
           Hout Hdest).
Defined.


(** ** What a dry run reports *)

(** The destination depends on three options only. *)
Lemma make_output_path_options (src : Path) (opts opts' : ModifyOptions)
    (fs : filesystem) :
  mo_in_place opts' = mo_in_place opts →
  mo_out_dir opts' = mo_out_dir opts →
  mo_base_input_dir opts' = mo_base_input_dir opts →
  make_output_path src opts' fs = make_output_path src opts fs.
Proof. unfold make_output_path. intros -> -> ->. reflexivity. Qed.

Section Preview.

Variable image_format : pybytes → option pystr.
Variable piexif_load : pybytes → option ExifDict.
Variable piexif_dump : ExifDict → option pybytes.
Variable piexif_insert : pybytes → pybytes → option pybytes.

(** X19: a dry run reports the destination of the real run. When a run
    returns a destination, with success or with a failed write, a dry run
    on the same files with the same [in_place], [out_dir] and
    [base_input_dir] returns success with that destination, whatever its
    other options are; and the dry run writes no file: every path keeps its
    entry or is a directory created where nothing was. *)
Theorem dry_run_reports_destination (src : Path) (opts opts' : ModifyOptions)
    (fs fs' : filesystem) (success : bool) (err : option failure) (dest : Path) :
  mo_dry_run opts' = true →
  mo_in_place opts' = mo_in_place opts →
  mo_out_dir opts' = mo_out_dir opts →
  mo_base_input_dir opts' = mo_base_input_dir opts →
  apply_strip_and_replace image_format piexif_load piexif_dump piexif_insert
    src opts fs = (fs', Returned success err (Some dest)) →
  ∃ fs'',
    apply_strip_and_replace image_format piexif_load piexif_dump piexif_insert
      src opts' fs = (fs'', Returned true None (Some dest))
    ∧ ∀ p, kept_or_new_dir fs fs'' p.
Proof.
  intros Hdry Hin Hout Hbase.
  unfold apply_strip_and_replace. rewrite Hdry.
  rewrite (make_output_path_options src opts opts' fs Hin Hout Hbase).
  destruct (negb _); [intros H; inversion H|].
  pose proof (make_output_path_kept src opts fs) as Hkept.
  destruct (make_output_path src opts fs) as [fs1 [d|]].
  2: { destruct (mo_dry_run opts); intros H; inversion H. }
  cbn [fst] in Hkept.
  assert (Hd : d = dest → ∃ fs'',
             (fs1, Returned true None (Some d))
             = (fs'', Returned true None (Some dest))
             ∧ ∀ p, kept_or_new_dir fs fs'' p).
  { intros ->. exists fs1. split; [reflexivity|exact Hkept]. }
  destruct (mo_dry_run opts).
  { intros H. apply Hd. congruence. }
  destruct (bool_decide (is_Some (mo_out_dir opts)) && bool_decide (d ≠ src)).
  - destruct (mkdir_parents (path_parent d) fs1) as [fs2 ok].
    destruct (if ok then write_exif_to_file piexif_dump piexif_insert src d _ fs2
              else None) as [fs3|];
      intros H; apply Hd; congruence.
  - destruct (write_exif_to_image_bytes piexif_dump piexif_insert fs1 src _)
      as [data_out|]; [|intros H; inversion H].
    destruct (write_bytes d data_out opts fs1) as [fs2 ok].
    destruct ok; intros H; apply Hd; congruence.
Qed.

End Preview.

Lemma dry_run_reports_destination_witness :
  let src : Path := (false, [py "p.jpg"]) in
  let dest : Path := (false, [py "o"; py "p.jpg"]) in
  let opts :=
    mkOptions true None false true false false false None
              (Some (false, [py "o"])) false None in
  let opts' :=
    mkOptions false None false false false false false None
              (Some (false, [py "o"])) true None in
  let fs : filesystem := {[ src := File (pyb "jpeg") ]} in
  let result :=
    apply_strip_and_replace (λ _, Some (py "JPEG")) (λ _, None)
      (λ _, Some (pyb "exif:")) (λ e d, Some (e ++ d)) src opts fs in
  result = (result.1, Returned true None (Some dest))
  ∧ ∃ fs'',
      apply_strip_and_replace (λ _, Some (py "JPEG")) (λ _, None)
        (λ _, Some (pyb "exif:")) (λ e d, Some (e ++ d)) src opts' fs
      = (fs'', Returned true None (Some dest))
      ∧ ∀ p, kept_or_new_dir fs fs'' p.
Proof.
  intros src dest opts opts' fs result.
  assert (Hrun : result = (result.1, Returned true None (Some dest)))
    by (vm_compute; reflexivity).
  split; [exact Hrun|].
  exact (dry_run_reports_destination (λ _, Some (py "JPEG")) (λ _, None)
           (λ _, Some (pyb "exif:")) (λ e d, Some (e ++ d)) src opts opts' fs
           result.1 true None dest eq_refl eq_refl eq_refl eq_refl Hrun).
Defined.

(** ** Replacement runs *)

Section Replacement.

Variable image_format : pybytes → option pystr.
Variable piexif_load : pybytes → option ExifDict.
Variable piexif_dump : ExifDict → option pybytes.
Variable piexif_insert : pybytes → pybytes → option pybytes.


End Replacement.


(** ** The list of extensions *)

Lemma lower_codepoint_no_capital (c0 c : N) :
  c ∈ lower_codepoint c0 → ¬ (65 ≤ c ≤ 90)%N.
Proof.
  unfold lower_codepoint.
  destruct ((65 <=? c0) && (c0 <=? 90))%N eqn:Hcap.
  { apply andb_true_iff in Hcap as [H1%N.leb_le H2%N.leb_le].
    intros ->%list_elem_of_singleton. lia. }
  destruct (c0 =? 304)%N eqn:H304.
  { intros [->| ->%list_elem_of_singleton]%elem_of_cons; lia. }
  destruct (c0 =? 8490)%N eqn:H8490.
  { intros ->%list_elem_of_singleton. lia. }
  intros ->%list_elem_of_singleton.
  apply andb_false_iff in Hcap as [H%N.leb_gt|H%N.leb_gt]; lia.
Qed.

Lemma str_lower_no_capital (s : pystr) (c : N) :
  c ∈ str_lower s → ¬ (65 ≤ c ≤ 90)%N.
Proof.
  unfold str_lower. intros (c0 & Hc & _)%list_elem_of_bind.
  exact (lower_codepoint_no_capital c0 c Hc).
Qed.

Lemma no_capital_check (x : pystr) :
  forallb (λ c, negb ((65 <=? c) && (c <=? 90))%N) x = true →
  ∀ c, c ∈ x → ¬ (65 ≤ c ≤ 90)%N.
Proof.
  rewrite forallb_forall. intros H c Hc%list_elem_of_In.
  specialize (H c Hc). apply negb_true_iff, andb_false_iff in H.
  rewrite !N.leb_gt in H. lia.
Qed.

(** X20: every extension that [normalize_extensions] returns begins with a
    dot and holds no ASCII capital letter, for the default set and for
    every list the user gives. *)
Theorem normalize_extensions_leading_dot (exts : option pystr) (x : pystr) :
  x ∈ normalize_extensions exts →
  (∃ rest, x = 46%N :: rest) ∧ ∀ c, c ∈ x → ¬ (65 ≤ c ≤ 90)%N.
Proof.
  assert (Hdefault : x ∈ SUPPORTED_EXTENSIONS →
            (∃ rest, x = 46%N :: rest) ∧ ∀ c, c ∈ x → ¬ (65 ≤ c ≤ 90)%N).
  { unfold SUPPORTED_EXTENSIONS. rewrite !elem_of_union, !elem_of_singleton.
    intros [[[[->| ->]| ->]| ->]| ->];
      (split; [eexists; reflexivity|]);
      apply no_capital_check; vm_compute; reflexivity. }
  unfold normalize_extensions.
  destruct exts as [[|c0 exts]|]; [exact Hdefault| |exact Hdefault].
  cbv zeta. generalize (str_split 44 [] (c0 :: exts)). intros parts.
  rewrite elem_of_list_to_set.
  intros (p & -> & (e & -> & _)%list_elem_of_fmap)%list_elem_of_fmap.
  destruct (starts_with (py ".") (str_lower (strip e))) eqn:Hdot.
  - split.
    + apply starts_with_spec in Hdot as [post Hpost].
      exists post. rewrite Hpost. reflexivity.
    + intros c. apply str_lower_no_capital.
  - change (py "." ++ str_lower (strip e)) with (46%N :: str_lower (strip e)).
    split; [eexists; reflexivity|].
    intros c [->|Hc]%elem_of_cons; [lia|].
    exact (str_lower_no_capital _ c Hc).
Qed.

Lemma normalize_extensions_leading_dot_witness :
  let exts := Some (py "JPG, .Png") in
  let x := py ".png" in
  x ∈ normalize_extensions exts
  ∧ (∃ rest, x = 46%N :: rest) ∧ ∀ c, c ∈ x → ¬ (65 ≤ c ≤ 90)%N.
Proof.
  intros exts x.
  assert (Hx : x ∈ normalize_extensions exts).
  { apply (bool_decide_unpack (x ∈ normalize_extensions exts)).
    vm_compute. exact I. }
  split; [exact Hx|].
  exact (normalize_extensions_leading_dot exts x Hx).
Defined.

(** ** UTF-8: encoding and decoding *)

Lemma byte_to_of_N (n : N) : (n ≤ 255)%N → Byte.to_N (byte_of_N n) = n.
Proof.
  intros Hn. unfold byte_of_N.
  pose proof (Byte.to_of_N_option_map n) as H.
  rewrite (proj2 (N.leb_le n 255) Hn) in H.
  destruct (Byte.of_N n) as [b|]; [|discriminate].
  cbn in H. cbn [from_option id]. congruence.
Qed.

Lemma land_mod_64 (a : N) : N.land a 63 = (a mod 64)%N.
Proof. exact (N.land_ones a 6). Qed.

Lemma land_mod_32 (a : N) : N.land a 31 = (a mod 32)%N.
Proof. exact (N.land_ones a 5). Qed.

Lemma land_mod_16 (a : N) : N.land a 15 = (a mod 16)%N.
Proof. exact (N.land_ones a 4). Qed.

Lemma land_mod_8 (a : N) : N.land a 7 = (a mod 8)%N.
Proof. exact (N.land_ones a 3). Qed.

(** The decoder at a lead byte: one unfolding of [utf8_decode]. *)
Lemma utf8_decode_cons (errors : error_handler) (b1 : byte) (t1 : pybytes) :
  utf8_decode errors (b1 :: t1)
  = let ch := Byte.to_N b1 in
    if (ch <? 128)%N then cons ch <$> utf8_decode errors t1
    else if (ch <? 194)%N then on_error errors (utf8_decode errors t1)
    else if (ch <? 224)%N then
      match t1 with
      | [] => on_error errors (Some [])
      | b2 :: t2 =>
        let ch2 := Byte.to_N b2 in
        if is_continuation ch2 then
          cons (N.land ch 31 * 64 + N.land ch2 63)%N <$> utf8_decode errors t2
        else on_error errors (utf8_decode errors t1)
      end
    else if (ch <? 240)%N then
      match t1 with
      | [] => on_error errors (Some [])
      | b2 :: t2 =>
        let ch2 := Byte.to_N b2 in
        if negb (is_continuation ch2)
           || (if (ch2 <? 160)%N then (ch =? 224)%N else (ch =? 237)%N)
        then on_error errors (utf8_decode errors t1)
        else
          match t2 with
          | [] => on_error errors (Some [])
          | b3 :: t3 =>
            let ch3 := Byte.to_N b3 in
            if is_continuation ch3 then
              cons (N.land ch 15 * 4096 + N.land ch2 63 * 64 + N.land ch3 63)%N
                <$> utf8_decode errors t3
            else on_error errors (utf8_decode errors t2)
          end
      end
    else if (ch <? 245)%N then
      match t1 with
      | [] => on_error errors (Some [])
      | b2 :: t2 =>
        let ch2 := Byte.to_N b2 in
        if negb (is_continuation ch2)
           || (if (ch2 <? 144)%N then (ch =? 240)%N else (ch =? 244)%N)
        then on_error errors (utf8_decode errors t1)
        else
          match t2 with
          | [] => on_error errors (Some [])
          | b3 :: t3 =>
            let ch3 := Byte.to_N b3 in
            if negb (is_continuation ch3) then on_error errors (utf8_decode errors t2)
            else
              match t3 with
              | [] => on_error errors (Some [])
              | b4 :: t4 =>
                let ch4 := Byte.to_N b4 in
                if is_continuation ch4 then
                  cons (N.land ch 7 * 262144 + N.land ch2 63 * 4096
                        + N.land ch3 63 * 64 + N.land ch4 63)%N
                    <$> utf8_decode errors t4
                else on_error errors (utf8_decode errors t3)
              end
          end
      end
    else on_error errors (utf8_decode errors t1).
Proof. reflexivity. Qed.

Ltac divmod_lia := zify; Z.to_euclidean_division_equations; lia.

Ltac bool_arith :=
  unfold is_continuation, is_high_surrogate, is_low_surrogate in *;
  repeat match goal with
         | |- context [(?a <? ?b)%N] => destruct (N.ltb_spec a b)
         | |- context [(?a <=? ?b)%N] => destruct (N.leb_spec a b)
         | |- context [(?a =? ?b)%N] => destruct (N.eqb_spec a b)
         end;
  cbn [andb orb negb]; first [reflexivity | exfalso; divmod_lia].

Ltac head_cond :=
  lazymatch goal with
  | |- (if ?c then _ else _) = _ =>
      first [ replace c with true by (symmetry; bool_arith)
            | replace c with false by (symmetry; bool_arith) ];
      cbv iota
  end.

(** One code point: the decoder reads back what the encoder wrote, with
    either error handler. *)
Lemma utf8_decode_encode_codepoint (errors : error_handler) (c : N)
    (b rest : pybytes) :
  utf8_encode_codepoint c = Some b →
  utf8_decode errors (b ++ rest) = cons c <$> utf8_decode errors rest.
Proof.
  unfold utf8_encode_codepoint.
  destruct (N.ltb_spec c 128) as [H1|H1].
  { intros [= <-]. cbn [app]. rewrite utf8_decode_cons. cbv zeta.
    rewrite byte_to_of_N by lia. head_cond. reflexivity. }
  destruct (N.ltb_spec c 2048) as [H2|H2].
  { intros [= <-]. cbn [app]. rewrite utf8_decode_cons. cbv zeta.
    rewrite !byte_to_of_N by divmod_lia.
    do 4 head_cond. f_equal. f_equal.
    rewrite land_mod_32, land_mod_64. divmod_lia. }
  destruct (N.ltb_spec c 65536) as [H3|H3].
  { destruct (is_high_surrogate c || is_low_surrogate c) eqn:Hsur; [discriminate|].
    assert (Hns : ¬ (55296 ≤ c ≤ 57343)%N).
    { apply orb_false_iff in Hsur as [Hh Hl].
      unfold is_high_surrogate, is_low_surrogate in Hh, Hl.
      apply andb_false_iff in Hh, Hl.
      rewrite !N.leb_gt in Hh, Hl. lia. }
    clear Hsur.
    intros [= <-]. cbn [app]. rewrite utf8_decode_cons. cbv zeta.
    rewrite !byte_to_of_N by divmod_lia.
    do 6 head_cond. f_equal. f_equal.
    rewrite land_mod_16, !land_mod_64. divmod_lia. }
  destruct (N.ltb_spec c 1114112) as [H4|H4]; [|discriminate].
  intros [= <-]. cbn [app]. rewrite utf8_decode_cons. cbv zeta.
  rewrite !byte_to_of_N by divmod_lia.
  do 8 head_cond. f_equal. f_equal.
  rewrite land_mod_8, !land_mod_64. divmod_lia.
Qed.

Lemma utf8_decode_encode (errors : error_handler) (s : pystr) (bs : pybytes) :
  utf8_encode s = Some bs → utf8_decode errors bs = Some s.
Proof.
  revert bs. induction s as [|c s IH]; intros bs; cbn [utf8_encode].
  { intros [= <-]. reflexivity. }
  destruct (utf8_encode_codepoint c) as [b|] eqn:Hc; [|discriminate].
  destruct (utf8_encode s) as [bs'|]; [|discriminate].
  intros [= <-].
  rewrite (utf8_decode_encode_codepoint errors c b bs' Hc), (IH bs' eq_refl).
  reflexivity.
Qed.

(** X21: text stored as UTF-8 is read back unchanged: for a tag that is not
    an XP tag, [_decode_bytes_value] of the UTF-8 form of a text is the
    text. The strict decoder accepts the same bytes, so nothing is
    dropped. *)
Theorem decode_bytes_value_utf8_round_trip (tag : Z) (s : pystr) (bs : pybytes) :
  tag ∉ XP_TAGS → utf8_encode s = Some bs →
  _decode_bytes_value tag bs = s ∧ utf8_decode Strict bs = Some s.
Proof.
  intros Htag Henc. split; [|exact (utf8_decode_encode Strict s bs Henc)].
  pose proof (decode_bytes_value_other tag bs Htag) as H.
  rewrite (utf8_decode_encode Ignore s bs Henc) in H. congruence.
Qed.

Lemma decode_bytes_value_utf8_round_trip_witness :
  let tag := ImageIFD.Artist in
  let s : pystr := [65; 110; 100; 114; 233; 32; 8364; 32; 128247]%N in
  let bs : pybytes :=
    [x41; x6e; x64; x72; xc3; xa9; x20; xe2; x82; xac; x20; xf0; x9f; x93; xb7] in
  (tag ∉ XP_TAGS) ∧ utf8_encode s = Some bs
  ∧ _decode_bytes_value tag bs = s ∧ utf8_decode Strict bs = Some s.
Proof.
  intros tag s bs.
  assert (Htag : tag ∉ XP_TAGS) by (vm_compute; set_solver).
  assert (Henc : utf8_encode s = Some bs) by (vm_compute; reflexivity).
  split; [exact Htag|]. split; [exact Henc|].
  exact (decode_bytes_value_utf8_round_trip tag s bs Htag Henc).
Defined.

(** ** Running the transformation twice *)

(** What [strip_identifying] leaves under a tag. *)
Lemma strip_identifying_lookup (exif : ExifDict) (pd ad ro : bool)
    (k : ifd_key) (t : Z) :
  exif_get k (strip_identifying exif pd ad ro) !! t
  = match k with
    | K0th => if decide (t ∈ removed_0th pd ad ro) then None
              else exif_get K0th exif !! t
    | KExif => if decide (t ∈ removed_Exif pd ad) then None
               else exif_get KExif exif !! t
    | _ => None
    end.
Proof.
  rewrite strip_identifying_closed_form.
  destruct k; unfold exif_get;
    cbn [exif_lookup ex_0th ex_Exif ex_GPS ex_1st from_option id];
    first [apply without_lookup | apply lookup_empty].
Qed.

Lemma strip_identifying_structure (exif : ExifDict) (pd ad ro : bool) (k : ifd_key) :
  exif_lookup k (strip_identifying exif pd ad ro)
  = Some (exif_get k (strip_identifying exif pd ad ro)).
Proof. rewrite strip_identifying_closed_form. destruct k; reflexivity. Qed.

Lemma replace_step_structure (opts : ModifyOptions) (exif : ExifDict) :
  (∀ k, exif_lookup k exif = Some (exif_get k exif)) →
  ∀ k, exif_lookup k (replace_step opts exif)
       = Some (exif_get k (replace_step opts exif)).
Proof.
  intros H k. unfold replace_step.
  destruct (truthy (mo_replace_camera opts)); [|apply H].
  destruct (get_default_camera_profile (mo_replace_camera opts)) as [[p mk] md].
  destruct (mo_replace_extended opts).
  - apply exif_lookup_extended.
  - apply exif_lookup_set_camera.
Qed.

Lemma exif_get_empty (k : ifd_key) (t : Z) : exif_get k empty_exif !! t = None.
Proof. destruct k; apply lookup_empty. Qed.

(** The replacement writes fixed values under fixed tags: under each tag
    the result holds what the replacement writes on the empty document, or
    else what the document held. *)
Lemma replace_step_lookup_empty (opts : ModifyOptions) (exif : ExifDict)
    (k : ifd_key) (t : Z) :
  exif_get k (replace_step opts exif) !! t
  = from_option Some (exif_get k exif !! t)
      (exif_get k (replace_step opts empty_exif) !! t).
Proof.
  unfold replace_step.
  destruct (truthy (mo_replace_camera opts)).
  2: { rewrite exif_get_empty. reflexivity. }
  destruct (get_default_camera_profile (mo_replace_camera opts)) as [[p mk] md].
  destruct (mo_replace_extended opts).
  - rewrite !apply_extended_camera_profile_lookup. cbv zeta.
    repeat (case_decide; try reflexivity);
      rewrite exif_get_empty; reflexivity.
  - rewrite !set_camera_make_model_lookup.
    repeat (case_decide; try reflexivity);
      rewrite exif_get_empty; reflexivity.
Qed.

(** X22: the transformation that [apply_strip_and_replace] applies to the
    loaded document (the strip pass when requested, then the replacement)
    is idempotent: on a document that was already transformed with the
    same options it changes nothing. *)
Theorem transform_exif_idempotent (opts : ModifyOptions) (exif : ExifDict) :
  transform_exif opts (transform_exif opts exif) = transform_exif opts exif.
Proof.
  unfold transform_exif, strip_step.
  destruct (mo_strip_identifying opts || truthy (mo_replace_camera opts)
            || mo_replace_extended opts) eqn:Hmods.
  2: { apply orb_false_iff in Hmods as [[_ Hrc]%orb_false_iff _].
       unfold replace_step. rewrite Hrc. reflexivity. }
  clear Hmods.
  generalize (mo_preserve_dates opts) (mo_anonymize_dates opts)
    (mo_remove_orientation opts).
  intros pd ad ro.
  apply exif_dict_eq.
  - intros k.
    rewrite !replace_step_structure
      by (intros k'; apply strip_identifying_structure).
    f_equal. apply map_eq. intros t.
    rewrite (replace_step_lookup_empty opts
               (strip_identifying (replace_step opts (strip_identifying exif pd ad ro))
                  pd ad ro)),
      (replace_step_lookup_empty opts (strip_identifying exif pd ad ro)).
    destruct (exif_get k (replace_step opts empty_exif) !! t) as [v|] eqn:Ht;
      [reflexivity|].
    cbn [from_option].
    rewrite (strip_identifying_lookup (replace_step opts _)).
    rewrite (strip_identifying_lookup exif).
    destruct k; [| |reflexivity|reflexivity].
    + case_decide as Hrem; [reflexivity|].
      rewrite replace_step_lookup_empty, Ht. cbn [from_option].
      rewrite strip_identifying_lookup. rewrite decide_False by exact Hrem.
      reflexivity.
    + case_decide as Hrem; [reflexivity|].
      rewrite replace_step_lookup_empty, Ht. cbn [from_option].
      rewrite strip_identifying_lookup. rewrite decide_False by exact Hrem.
      reflexivity.
  - assert (Hth : ∀ e, ex_thumbnail
                         (replace_step opts (strip_identifying e pd ad ro))
                       = Some None).
    { intros e.
      apply (replace_step_keeps_groups opts (strip_identifying e pd ad ro) ∅ ∅ None);
        rewrite strip_identifying_closed_form; reflexivity. }
    rewrite !Hth. reflexivity.
Qed.

(** ** Runs that fail *)

Section Failures.

Variable image_format : pybytes → option pystr.
Variable piexif_load : pybytes → option ExifDict.
Variable piexif_dump : ExifDict → option pybytes.
Variable piexif_insert : pybytes → pybytes → option pybytes.

(** X23: a run that reports a failure other than a failed write (a format
    that is not supported, or a dump or an insertion that raises) has
    written no file: every path keeps its entry, or is a directory that
    [make_output_path] created where nothing was. Nothing is said of a run
    that reports a failed write, which may leave a backup copy or a
    destination that was opened. *)
Theorem failed_run_writes_no_file (src : Path) (opts : ModifyOptions)
    (fs fs' : filesystem) (err : option failure) (d : option Path) (p : Path) :
  apply_strip_and_replace image_format piexif_load piexif_dump piexif_insert
    src opts fs = (fs', Returned false err d) →
  err ≠ Some WriteFailed →
  (err = Some NotSupported → fs' = fs)
  ∧ kept_or_new_dir fs fs' p.
Proof.
  unfold apply_strip_and_replace.
  destruct (negb _).
  { intros H _. injection H as <- _ _. split; [reflexivity|].
    apply kept_or_new_dir_refl. }
  set (exif := transform_exif opts _).
  pose proof (make_output_path_kept src opts fs p) as Hkept.
  destruct (mo_dry_run opts).
  { destruct (make_output_path src opts fs) as [fs1 [dest|]];
      intros H; inversion H. }
  destruct (make_output_path src opts fs) as [fs1 [dest|]];
    [|intros H; inversion H].
  cbn [fst] in Hkept.
  destruct (bool_decide (is_Some (mo_out_dir opts)) && bool_decide (dest ≠ src)).
  - destruct (mkdir_parents (path_parent dest) fs1) as [fs2 ok].
    destruct (if ok then write_exif_to_file piexif_dump piexif_insert src dest exif fs2
              else None) as [fs3|]; [intros H; inversion H|].
    intros H Herr. exfalso. apply Herr. congruence.
  - destruct (write_exif_to_image_bytes piexif_dump piexif_insert fs1 src exif)
      as [data_out|].
    + destruct (write_bytes dest data_out opts fs1) as [fs2 ok].
      destruct ok; [intros H; inversion H|].
      intros H Herr. exfalso. apply Herr. congruence.
    + intros H _. split; [intros Hns; congruence|].
      replace fs' with fs1 by congruence. exact Hkept.
Qed.

End Failures.

Lemma failed_run_writes_no_file_witness :
  let src : Path := (false, [py "p.jpg"]) in
  let opts :=
    mkOptions true None false true false false true (Some (py ".bak")) None
              false None in
  let fs : filesystem := {[ src := File (pyb "jpeg") ]} in
  let result :=
    apply_strip_and_replace (λ _, Some (py "JPEG")) (λ _, None)
      (λ _, None) (λ e d, Some (e ++ d)) src opts fs in
  result = (result.1, Returned false (Some DumpInsertFailed) None)
  ∧ Some DumpInsertFailed ≠ Some WriteFailed
  ∧ kept_or_new_dir fs result.1 src.
Proof.
  intros src opts fs result.
  assert (Hrun : result = (result.1, Returned false (Some DumpInsertFailed) None))
    by (vm_compute; reflexivity).
  assert (Herr : Some DumpInsertFailed ≠ Some WriteFailed) by discriminate.
  split; [exact Hrun|]. split; [exact Herr|].
  exact (proj2 (failed_run_writes_no_file (λ _, Some (py "JPEG")) (λ _, None)
                  (λ _, None) (λ e d, Some (e ++ d)) src opts fs result.1
                  (Some DumpInsertFailed) None src Hrun Herr)).
Defined.

(** ** Windows XP tags *)

Lemma replicate_zero_units (n : nat) :
  utf16le_decode Ignore (concat (replicate n [x00; x00]))
  = Some (replicate n 0%N).
Proof.
  induction n as [|n IH]; [reflexivity|].
  cbn [replicate concat app].
  change (utf16le_decode Ignore (x00 :: x00 :: concat (replicate n [x00; x00])))
    with (cons 0%N <$> utf16le_decode Ignore (concat (replicate n [x00; x00]))).
  rewrite IH. reflexivity.
Qed.

Lemma utf16le_decode_units (s : pystr) (rest : pybytes) :
  Forall (λ c, (c < 55296)%N ∨ (57343 < c < 65536)%N) s →
  utf16le_decode Ignore (utf16le_units s ++ rest)
  = (s ++.) <$> utf16le_decode Ignore rest.
Proof.
  induction s as [|c s IH]; intros Hs.
  { cbn. by destruct (utf16le_decode Ignore rest). }
  apply Forall_cons in Hs as [Hc Hs].
  unfold utf16le_units. cbn [mbind list_bind app]. fold (utf16le_units s).
  cbn [utf16le_decode].
  assert (Hlo : Byte.to_N (byte_of_N (c mod 256)) = (c mod 256)%N).
  { apply byte_to_of_N. divmod_lia. }
  assert (Hhi : Byte.to_N (byte_of_N (c / 256)) = (c / 256)%N).
  { apply byte_to_of_N. divmod_lia. }
  rewrite Hlo, Hhi.
  assert (Hu : (c mod 256 + 256 * (c / 256) = c)%N) by divmod_lia.
  rewrite Hu.
  assert (Hl : is_low_surrogate c = false).
  { unfold is_low_surrogate. apply andb_false_iff.
    rewrite !N.leb_gt. lia. }
  assert (Hh : is_high_surrogate c = false).
  { unfold is_high_surrogate. apply andb_false_iff.
    rewrite !N.leb_gt. lia. }
  rewrite Hl, Hh, (IH Hs).
  by destruct (utf16le_decode Ignore rest).
Qed.

Lemma lstrip_nul_zeros (n : nat) (s : pystr) :
  lstrip_nul (replicate n 0%N ++ s) = lstrip_nul s.
Proof. induction n as [|n IH]; [reflexivity|exact IH]. Qed.

Lemma rstrip_nul_zeros (s : pystr) (n : nat) :
  last s ≠ Some 0%N → rstrip_nul (s ++ replicate n 0%N) = s.
Proof.
  intros Hlast. unfold rstrip_nul.
  rewrite reverse_app, reverse_replicate, lstrip_nul_zeros.
  destruct s as [|c s _] using rev_ind; [reflexivity|].
  rewrite last_snoc in Hlast. rewrite reverse_snoc. cbn [lstrip_nul].
  destruct (N.eqb_spec c 0) as [->|_]; [done|].
  rewrite <- reverse_snoc. apply reverse_involutive.
Qed.

(** X24: an XP tag is read back from its Windows form: for a text of code
    points below 65536 that are no surrogates and that does not end in NUL,
    [_decode_bytes_value] of its UTF-16LE bytes, followed by any number of
    NUL terminators, is the text. *)
Theorem decode_bytes_value_xp_round_trip (tag : Z) (s : pystr) (n : nat) :
  tag ∈ XP_TAGS →
  Forall (λ c, (c < 55296)%N ∨ (57343 < c < 65536)%N) s →
  last s ≠ Some 0%N →
  _decode_bytes_value tag (utf16le_units s ++ concat (replicate n [x00; x00])) = s.
Proof.
  intros Htag Hs Hlast.
  pose proof (decode_bytes_value_xp tag
                (utf16le_units s ++ concat (replicate n [x00; x00])) Htag) as H.
  rewrite (utf16le_decode_units s _ Hs), replicate_zero_units in H.
  cbn [fmap option_fmap option_map] in H.
  rewrite (rstrip_nul_zeros s n Hlast) in H. congruence.
Qed.

Lemma decode_bytes_value_xp_round_trip_witness :
  let s : pystr := [72; 233; 8364]%N in
  (XP_COMMENT ∈ XP_TAGS)
  ∧ Forall (λ c, (c < 55296)%N ∨ (57343 < c < 65536)%N) s
  ∧ last s ≠ Some 0%N
  ∧ _decode_bytes_value XP_COMMENT
      (utf16le_units s ++ concat (replicate 1 [x00; x00])) = s.
Proof.
  intros s.
  assert (Htag : XP_COMMENT ∈ XP_TAGS) by (vm_compute; set_solver).
  assert (Hs : Forall (λ c, (c < 55296)%N ∨ (57343 < c < 65536)%N) s).
  { repeat (apply Forall_cons; split; [lia|]). apply Forall_nil_2. }
  assert (Hlast : last s ≠ Some 0%N) by (cbn; discriminate).
  split; [exact Htag|]. split; [exact Hs|]. split; [exact Hlast|].
  exact (decode_bytes_value_xp_round_trip XP_COMMENT s 1 Htag Hs Hlast).
Defined.

(** ** Runs of the definitions *)

Example profile_literal :
  get_default_camera_profile (Some (py "Sony|A7IV"))
  = (py "custom", py "Sony", py "A7IV").
Proof. vm_compute. reflexivity. Qed.

Example profile_default :
  get_default_camera_profile None = get_default_camera_profile (Some (py "CANON")).
Proof. vm_compute. reflexivity. Qed.

Example profile_make_only :
  get_default_camera_profile (Some (py "Nikon"))
  = (py "custom", py "Nikon", py "Nikon Camera").
Proof. vm_compute. reflexivity. Qed.

Example xp_title_utf16 :
  _decode_bytes_value XP_TITLE [x48; x00; x69; x00; x00; x00] = py "Hi".
Proof. vm_compute. reflexivity. Qed.

Example utf8_two_bytes :
  utf8_decode Strict [xc3; xa9] = Some [233%N]
  ∧ utf8_encode [233%N] = Some [xc3; xa9].
Proof. split; vm_compute; reflexivity. Qed.

Example utf8_overlong_is_dropped :
  utf8_decode Strict [xc0; x80] = None ∧ utf8_decode Ignore [xc0; x80] = Some [].
Proof. split; vm_compute; reflexivity. Qed.

Example hex_preview_short : hex_preview [xff; x0a] = py "ff0a".
Proof. vm_compute. reflexivity. Qed.

Example scan_upper_case :
  deep_scan_bytes (Readable (pyb "made with MidJourney") None) None 20
  = [py "bytes: found 'midjourney'"].
Proof.
  unfold deep_scan_bytes. rewrite builtin_keys.
  change (length (pyb "made with MidJourney")) with 20%nat.
  rewrite read_calls_some by done.
  rewrite (take_ge (pyb "made with MidJourney")),
    (drop_ge (pyb "made with MidJourney"))
    by (unfold chunk_size; simpl length; lia).
  rewrite read_calls_nil. vm_compute. reflexivity.
Qed.

Example path_parsing :
  path_of_str (py "/data/./in//photo.jpg")
  = (true, [py "data"; py "in"; py "photo.jpg"]).
Proof. vm_compute. reflexivity. Qed.

Example mirror_into_out_dir :
  (make_output_path (true, [py "data"; py "in"; py "a"; py "p.jpg"])
     (mkOptions true None false true false false false None
                (Some (false, [py "out"])) false
                (Some (true, [py "data"; py "in"])))
     ∅).2
  = Some (false, [py "out"; py "a"; py "p.jpg"]).
Proof. vm_compute. reflexivity. Qed.
